(** * Tachyon generic assembler (source/backend/asm.js): a shallow embedding

    The development follows the layout of [asm.js]:
    - host integer operators ([&], [>>], [<<] on JavaScript numbers);
    - the code block: item stream, primitive emitters, labels, deferred
      objects, [align], [origin], and the relaxation loop of [assemble];
    - the linker [asm.link];
    - the address object [asm.address] with its limb arithmetic.

    Objects that the JavaScript code shares by reference (labels and deferred
    objects, reachable both from the item stream and from the fixup list, and
    from the closures of check and production procedures) live in two stores
    keyed by object identity; items of the stream hold the keys.

    Check and production procedures are the caller's: a check procedure is
    taken as a function of the label positions and of the position it is
    called at, a production procedure as the list of values it hands to
    [gen8]. Numbers are integers. A [while] loop that the code does not
    bound takes a number of iterations it may use at most. *)

From stdpp Require Import base option list gmap strings.
From Stdlib Require Import ZArith Lia.

Open Scope Z_scope.

(** ** Outcomes of a call

    [Error msg] is a thrown exception ([asm.error], a failed [assert]);
    [OutOfFuel] says that a [while] loop was cut after the given number of
    iterations. *)

Inductive result (A : Type) : Type :=
| Ok (a : A)
| Error (msg : string)
| OutOfFuel.

Arguments Ok {A} a.
Arguments Error {A} msg.
Arguments OutOfFuel {A}.

#[global] Instance result_ret : MRet result := fun A a => Ok a.

#[global] Instance result_bind : MBind result := fun A B f m =>
  match m with
  | Ok a => f a
  | Error msg => Error msg
  | OutOfFuel => OutOfFuel
  end.

(** ** JavaScript integer operators

    The bitwise operators first convert their operands with ToInt32. *)

Definition js_toInt32 (x : Z) : Z := (x + 2 ^ 31) mod 2 ^ 32 - 2 ^ 31.

Definition js_and (x y : Z) : Z := Z.land (js_toInt32 x) (js_toInt32 y).

Definition js_shr (x k : Z) : Z := Z.shiftr (js_toInt32 x) (k mod 32).

Definition js_shl (x k : Z) : Z := js_toInt32 (Z.shiftl (js_toInt32 x) (k mod 32)).

(** Modelled from the spec: [num_and] and [num_shift] come from Tachyon's
    number utilities, which are outside [asm.js]; the specification gives
    [gen8(n)] as appending [n & 0xff] and the wider emitters as taking
    [(n >> (8*k)) & 0xff] with an arithmetic shift. [num_shift n k] shifts
    left by [k], that is right by [-k] when [k] is negative. *)
Definition num_and (n m : Z) : Z := Z.land n m.

Definition num_shift (n k : Z) : Z := Z.shiftl n k.

(** ** Items of the stream *)

(** [typeof curr === "number"] is [Num]; the other three are the objects of
    type [asm.type.LBL], [asm.type.DEF] and [asm.type.LST]. A label or a
    deferred object is held by its identity. *)
Inductive item : Type :=
| Num (n : Z)
| LBL (l : nat)
| DEF (d : nat)
| LST (text : string).

(** A check procedure [check(cb, pos)] reads label positions (through
    [label.getPos()]) and the position handed to it; [None] is [null].
    A production procedure [prod(cb, pos)] is recorded by the arguments of
    the [gen8] calls it makes on the block, in order. These are the
    procedures that return: one that throws (as [getPos] does on a label
    without a position) stops [assemble] with its own error and is not
    described here. *)
Abbreviation check_fn := (gmap nat Z -> Z -> option Z).

Abbreviation prod_fn := (gmap nat Z -> Z -> list Z).

(** [asm.CodeBlock.prototype.deferred]: [length] is [checks.length]. *)
Record deferred : Type := mkDeferred {
  checks : list check_fn;
  prods : list prod_fn;
  current : nat;
  size : Z
}.


(** A link object of a required site: [width()] and the bytes that
    [linkValue(dstAddr)] returns for the destination address, given by its
    integer value. *)
Record linkObj : Type := mkLinkObj {
  lwidth : Z;
  linkValue : Z -> list Z
}.

(** [asm.CodeBlock]. [labels] holds [_pos] of every label whose [_pos] is
    not [null]; [deferreds] holds the deferred objects. *)
Record CodeBlock : Type := mkCodeBlock {
  startPos : Z;
  bigEndian : bool;
  useListing : bool;
  code : list item;
  labels : gmap nat Z;
  deferreds : gmap nat deferred;
  providedArray : list nat;
  requiredArray : list (nat * linkObj)
}.

Definition new_CodeBlock (start : Z) (be listing : bool) : CodeBlock :=
  mkCodeBlock start be listing [] ∅ ∅ [] [].

Definition set_code (cb : CodeBlock) (c : list item) : CodeBlock :=
  mkCodeBlock (startPos cb) (bigEndian cb) (useListing cb) c
    (labels cb) (deferreds cb) (providedArray cb) (requiredArray cb).

Definition set_labels (cb : CodeBlock) (lp : gmap nat Z) : CodeBlock :=
  mkCodeBlock (startPos cb) (bigEndian cb) (useListing cb) (code cb)
    lp (deferreds cb) (providedArray cb) (requiredArray cb).

Definition set_deferreds (cb : CodeBlock) (ds : gmap nat deferred) : CodeBlock :=
  mkCodeBlock (startPos cb) (bigEndian cb) (useListing cb) (code cb)
    (labels cb) ds (providedArray cb) (requiredArray cb).

(** ** Primitive emitters *)

Definition extend (x : item) (cb : CodeBlock) : CodeBlock :=
  set_code cb (code cb ++ [x]).

Definition gen8 (n : Z) (cb : CodeBlock) : CodeBlock :=
  extend (Num (num_and n 255)) cb.

Definition gen16BE (n : Z) (cb : CodeBlock) : CodeBlock :=
  gen8 n (gen8 (num_shift n (-8)) cb).

Definition gen16LE (n : Z) (cb : CodeBlock) : CodeBlock :=
  gen8 (num_shift n (-8)) (gen8 n cb).

Definition gen16 (n : Z) (cb : CodeBlock) : CodeBlock :=
  if bigEndian cb then gen16BE n cb else gen16LE n cb.

Definition gen32BE (n : Z) (cb : CodeBlock) : CodeBlock :=
  gen16 n (gen16 (num_shift n (-16)) cb).

Definition gen32LE (n : Z) (cb : CodeBlock) : CodeBlock :=
  gen16 (num_shift n (-16)) (gen16 n cb).

Definition gen32 (n : Z) (cb : CodeBlock) : CodeBlock :=
  if bigEndian cb then gen32BE n cb else gen32LE n cb.

Definition gen64BE (n : Z) (cb : CodeBlock) : CodeBlock :=
  gen32 n (gen32 (num_shift n (-32)) cb).

Definition gen64LE (n : Z) (cb : CodeBlock) : CodeBlock :=
  gen32 (num_shift n (-32)) (gen32 n cb).

Definition gen64 (n : Z) (cb : CodeBlock) : CodeBlock :=
  if bigEndian cb then gen64BE n cb else gen64LE n cb.

Definition genNumber (width n : Z) (cb : CodeBlock) : result CodeBlock :=
  if width =? 8 then Ok (gen8 n cb)
  else if width =? 16 then Ok (gen16 n cb)
  else if width =? 32 then Ok (gen32 n cb)
  else if width =? 64 then Ok (gen64 n cb)
  else Error "Invalid width".


(** ** Labels *)

(** [genLabel]: a label whose [_pos] is already set is refused; otherwise
    [_pos] becomes 0 and the label joins the stream. *)
Definition genLabel (l : nat) (cb : CodeBlock) : result CodeBlock :=
  match labels cb !! l with
  | Some _ => Error "label multiply defined"
  | None => Ok (extend (LBL l) (set_labels cb (<[l := 0]> (labels cb))))
  end.

(** ** Deferred objects *)

(** The constructor [deferred(checks, prods)] with its three assertions. *)
Definition new_deferred (cs : list check_fn) (ps : list prod_fn) : result deferred :=
  if bool_decide (1 <= length cs)%nat then
    if bool_decide (1 <= length ps)%nat then
      if bool_decide (length cs = length ps) then Ok (mkDeferred cs ps 0 0)
      else Error "The number of checks procedure must be equal to the number of prods procedure"
    else Error "expecting prods to be an array of at least one function"
  else Error "expecting checks to be an array of at least one function".

(** [genDeferred]: the new object gets an identity no other deferred object
    of the block has. *)
Definition genDeferred (cs : list check_fn) (ps : list prod_fn) (cb : CodeBlock)
  : result CodeBlock :=
  d ← new_deferred cs ps;
  let k := fresh (dom (deferreds cb)) in
  Ok (extend (DEF k) (set_deferreds cb (<[k := d]> (deferreds cb)))).

(** The local [mod] of [align]: JavaScript's [%] truncates towards zero.
    [-pos + offset] and [divisor + r] are the code's sums as long as they
    stay within the integers that a number holds exactly (see
    [safe_integer]). *)
Definition align_mod (dividend divisor : Z) : Z :=
  let r := Z.rem dividend divisor in
  if r <? 0 then divisor + r else r.

Definition align_nb_bytes (multiple offset : Z) : check_fn :=
  fun _ pos => Some (align_mod (- pos + offset) multiple).

Definition align_add_bytes (multiple offset fill : Z) : prod_fn :=
  fun _ pos => replicate (Z.to_nat (align_mod (- pos + offset) multiple)) fill.

Definition align (multiple offset fill : Z) (cb : CodeBlock) : result CodeBlock :=
  genDeferred [align_nb_bytes multiple offset] [align_add_bytes multiple offset fill] cb.

(** [origin]: the two local procedures [nb_bytes] and [add_bytes] are
    declared and never used; the method returns [this]. *)
Definition origin (address fill : Z) (cb : CodeBlock) : CodeBlock := cb.

(** [this.label()] makes a new object, different from every label that
    exists, placed or not. Label objects are numbered here in the order of
    their creation: [allocated] is the number of labels created so far,
    the new label is [allocated] itself, and one more label exists
    afterwards. *)
Definition new_label (allocated : nat) : nat * nat := (allocated, S allocated).

(** [genRequired] and [genProvided]: the anchor label is the new object
    that [this.label()] returns. *)
Definition genRequired (o : linkObj) (allocated : nat) (cb : CodeBlock)
  : result (CodeBlock * nat) :=
  let '(label, allocated') := new_label allocated in
  cb1 ← genLabel label cb;
  cb2 ← genNumber (lwidth o) 0 cb1;
  Ok (mkCodeBlock (startPos cb2) (bigEndian cb2) (useListing cb2) (code cb2)
        (labels cb2) (deferreds cb2) (providedArray cb2)
        (requiredArray cb2 ++ [(label, o)]),
      allocated').

Definition genProvided (allocated : nat) (cb : CodeBlock) : result (CodeBlock * nat) :=
  let '(label, allocated') := new_label allocated in
  cb1 ← genLabel label cb;
  Ok (mkCodeBlock (startPos cb1) (bigEndian cb1) (useListing cb1) (code cb1)
        (labels cb1) (deferreds cb1) (providedArray cb1 ++ [label])
        (requiredArray cb1),
      allocated').

(** ** [assemble] *)

(** First loop of [assemble]: the fixup list and the initial label
    positions. An entry is [[span, curr]]. Here and in the passes that
    follow, [pos] and [span] are integers; they are the code's numbers as
    long as every sum stays within the integers that a number holds
    exactly (see [exact_positions]). *)
Fixpoint build_fixups (cd : list item) (span pos : Z) (lp : gmap nat Z)
  : list (Z * item) * gmap nat Z :=
  match cd with
  | [] => ([], lp)
  | Num _ :: r => build_fixups r (span + 1) (pos + 1) lp
  | LBL l :: r =>
      let '(fl, lp') := build_fixups r 0 pos (<[l := pos]> lp) in
      ((span, LBL l) :: fl, lp')
  | DEF d :: r =>
      let '(fl, lp') := build_fixups r 0 pos lp in
      ((span, DEF d) :: fl, lp')
  | LST _ :: r => build_fixups r span pos lp
  end.

(** The inner [while (curr.current < curr.length)]: [cs] is what is left of
    [checks] from index [cur] on. It returns the final [current] and
    [newSize]. *)
Fixpoint try_checks (cs : list check_fn) (lp : gmap nat Z) (pos : Z) (cur : nat)
  : nat * option Z :=
  match cs with
  | [] => (cur, None)
  | check :: cs' =>
      match check lp pos with
      | Some newSize => (cur, Some newSize)
      | None => try_checks cs' lp pos (S cur)
      end
  end.

(** The body of the sizing loop for one deferred object at position [pos]:
    the updated object, the position after it, and whether its size
    changed. *)
Definition size_deferred (lp : gmap nat Z) (pos : Z) (d : deferred)
  : result (deferred * Z * bool) :=
  let oldSize := size d in
  match try_checks (drop (current d) (checks d)) lp pos (current d) with
  | (_, None) => Error "every check procedure tested without finding a valid one"
  | (cur, Some newSize) =>
      if oldSize =? newSize
      then Ok (mkDeferred (checks d) (prods d) cur oldSize, pos + oldSize, false)
      else Ok (mkDeferred (checks d) (prods d) cur newSize, pos + oldSize + oldSize, true)
  end.

(** "Determine size of deferred code given current label positions". *)
Fixpoint sizing_pass (fl : list (Z * item)) (lp : gmap nat Z)
    (ds : gmap nat deferred) (pos : Z) (hasChanged : bool)
  : result (gmap nat deferred * Z * bool) :=
  match fl with
  | [] => Ok (ds, pos, hasChanged)
  | (span, curr) :: r =>
      let pos := pos + span in
      match curr with
      | DEF d =>
          match ds !! d with
          | None => Error "not an object of the block"
          | Some dd =>
              '(dd', pos', ch) ← size_deferred lp pos dd;
              sizing_pass r lp (<[d := dd']> ds) pos' (hasChanged || ch)
          end
      | _ => sizing_pass r lp ds pos hasChanged
      end
  end.

(** "Determine label positions given new size of deferred code". *)
Fixpoint label_pass (fl : list (Z * item)) (lp : gmap nat Z)
    (ds : gmap nat deferred) (pos : Z) (hasChanged : bool)
  : result (gmap nat Z * bool) :=
  match fl with
  | [] => Ok (lp, hasChanged)
  | (span, curr) :: r =>
      let pos := pos + span in
      match curr with
      | LBL l =>
          match lp !! l with
          | None => Error "undefined label"
          | Some p =>
              if p =? pos then label_pass r lp ds pos hasChanged
              else label_pass r (<[l := pos]> lp) ds pos true
          end
      | DEF d =>
          match ds !! d with
          | None => Error "not an object of the block"
          | Some dd => label_pass r lp ds (pos + size dd) hasChanged
          end
      | _ => label_pass r lp ds pos hasChanged
      end
  end.

(** One iteration of the fix-point's body. *)
Definition one_pass (fl : list (Z * item)) (start : Z) (lp : gmap nat Z)
    (ds : gmap nat deferred) : result (gmap nat Z * gmap nat deferred * bool) :=
  '(ds1, _, ch1) ← sizing_pass fl lp ds start false;
  '(lp1, ch2) ← label_pass fl lp ds1 start ch1;
  Ok (lp1, ds1, ch2).

(** [while (hasChanged)]: [fuel] bounds the number of iterations. *)
Fixpoint fixpoint_loop (fuel : nat) (fl : list (Z * item)) (start : Z)
    (lp : gmap nat Z) (ds : gmap nat deferred)
  : result (gmap nat Z * gmap nat deferred) :=
  match fuel with
  | O => OutOfFuel
  | S fuel' =>
      '(lp1, ds1, hasChanged) ← one_pass fl start lp ds;
      if hasChanged : bool then fixpoint_loop fuel' fl start lp1 ds1
      else Ok (lp1, ds1)
  end.

(** The state after [n] iterations of the body, whatever [hasChanged]
    says. *)
Fixpoint run_passes (n : nat) (fl : list (Z * item)) (start : Z)
    (lp : gmap nat Z) (ds : gmap nat deferred)
  : result (gmap nat Z * gmap nat deferred) :=
  match n with
  | O => Ok (lp, ds)
  | S n' =>
      '(lp1, ds1, _) ← one_pass fl start lp ds;
      run_passes n' fl start lp1 ds1
  end.

(** "Generate deferred code": the new stream and the final position. *)
Fixpoint emit (oldCode : list item) (lp : gmap nat Z) (ds : gmap nat deferred)
    (pos : Z) : result (list item * Z) :=
  match oldCode with
  | [] => Ok ([], pos)
  | Num n :: r =>
      '(out, p) ← emit r lp ds (pos + 1);
      Ok (Num n :: out, p)
  | LBL l :: r =>
      match lp !! l with
      | None => Error "undefined label"
      | Some p0 =>
          if p0 =? pos then emit r lp ds pos
          else Error "inconsistency detected"
      end
  | DEF d :: r =>
      match ds !! d with
      | None => Error "not an object of the block"
      | Some dd =>
          match prods dd !! current dd with
          | None => Error "not a function"
          | Some prod =>
              '(out, p) ← emit r lp ds (pos + size dd);
              Ok (map (fun n => Num (num_and n 255)) (prod lp pos) ++ out, p)
          end
      end
  | LST text :: r =>
      '(out, p) ← emit r lp ds pos;
      Ok (LST text :: out, p)
  end.

Definition assemble (fuel : nat) (cb : CodeBlock) : result (Z * CodeBlock) :=
  let '(fixupList, lp0) := build_fixups (code cb) 0 (startPos cb) (labels cb) in
  '(lp, ds) ← fixpoint_loop fuel fixupList (startPos cb) lp0 (deferreds cb);
  '(newCode, pos) ← emit (code cb) lp ds (startPos cb);
  Ok (pos, mkCodeBlock (startPos cb) (bigEndian cb) (useListing cb) newCode
             lp ds (providedArray cb) (requiredArray cb)).

(** [byteNb]: [forEach] over the stream, counting the numbers. *)
Fixpoint count_numbers (c : list item) : Z :=
  match c with
  | [] => 0
  | Num _ :: r => 1 + count_numbers r
  | _ :: r => count_numbers r
  end.

Definition byteNb (cb : CodeBlock) : Z := count_numbers (code cb).

(** ** Vocabulary of the statements about [assemble] *)

(** The size field of the deferred object [d]. *)
Definition dsize (ds : gmap nat deferred) (d : nat) : Z :=
  match ds !! d with
  | Some dd => size dd
  | None => 0
  end.

(** Byte width of an item of the stream: a number counts 1, a listing and
    a label 0, a deferred object its size. *)
Definition item_width (ds : gmap nat deferred) (it : item) : Z :=
  match it with
  | Num _ => 1
  | DEF d => dsize ds d
  | LBL _ | LST _ => 0
  end.

Fixpoint width_sum (ds : gmap nat deferred) (c : list item) : Z :=
  match c with
  | [] => 0
  | it :: r => item_width ds it + width_sum ds r
  end.

(** The walk of the emission loop over the old stream finds, at every
    label, the stored position equal to the walk position. *)
Fixpoint consistent_walk (c : list item) (lp : gmap nat Z)
    (ds : gmap nat deferred) (pos : Z) : Prop :=
  match c with
  | [] => True
  | LBL l :: r => lp !! l = Some pos /\ consistent_walk r lp ds pos
  | it :: r => consistent_walk r lp ds (pos + item_width ds it)
  end.

(** A label pass over the fixup list would change nothing. *)
Fixpoint stable_labels (fl : list (Z * item)) (lp : gmap nat Z)
    (ds : gmap nat deferred) (pos : Z) : Prop :=
  match fl with
  | [] => True
  | (span, LBL l) :: r =>
      lp !! l = Some (pos + span) /\ stable_labels r lp ds (pos + span)
  | (span, DEF d) :: r =>
      is_Some (ds !! d) /\ stable_labels r lp ds (pos + span + dsize ds d)
  | (span, _) :: r => stable_labels r lp ds (pos + span)
  end.

(** Identities of the labels and of the deferred objects of a stream and
    of a fixup list, in order. *)
Definition labels_of (c : list item) : list nat :=
  omap (fun it => match it with LBL l => Some l | _ => None end) c.

Definition deferreds_of (c : list item) : list nat :=
  omap (fun it => match it with DEF d => Some d | _ => None end) c.

Definition fixup_items (fl : list (Z * item)) : list item := map snd fl.

(** Every production procedure that the emission loop calls appends as
    many bytes as the size field of its deferred object says. *)
Fixpoint productions_fit (c : list item) (lp : gmap nat Z)
    (ds : gmap nat deferred) (pos : Z) : Prop :=
  match c with
  | [] => True
  | DEF d :: r =>
      (forall dd prod, ds !! d = Some dd -> prods dd !! current dd = Some prod ->
         Z.of_nat (length (prod lp pos)) = size dd) /\
      productions_fit r lp ds (pos + dsize ds d)
  | it :: r => productions_fit r lp ds (pos + item_width ds it)
  end.

(** The byte sequence of a stream: what [assembleToMachineCodeBlock]
    writes to the memory block. *)
Definition emitted_bytes (c : list item) : list Z :=
  omap (fun it => match it with Num n => Some n | _ => None end) c.

(** Items of an assembled stream, and the numbers that [gen8] puts in a
    stream. *)
Definition byte_or_listing (it : item) : Prop :=
  match it with
  | Num n => 0 <= n <= 255
  | LST _ => True
  | LBL _ | DEF _ => False
  end.

Definition number_in_range (it : item) : Prop :=
  match it with
  | Num n => 0 <= n <= 255
  | _ => True
  end.

(** [ds'] comes after [ds] in the relaxation run under label positions
    [lp]: each deferred object keeps its procedures, its [current] index
    has not gone down, and every index it went past had its check
    procedure return [null] at some position. *)
Definition advanced (lp : gmap nat Z) (ds ds' : gmap nat deferred) : Prop :=
  forall d dd, ds !! d = Some dd ->
    exists dd', ds' !! d = Some dd' /\
      checks dd' = checks dd /\ prods dd' = prods dd /\
      (current dd <= current dd')%nat /\
      forall i, (current dd <= i < current dd')%nat ->
        exists check pos, checks dd !! i = Some check /\ check lp pos = None.

(** The same without the account of the rejections, across passes whose
    label positions differ. *)
Definition not_rewound (ds ds' : gmap nat deferred) : Prop :=
  forall d dd, ds !! d = Some dd ->
    exists dd', ds' !! d = Some dd' /\
      checks dd' = checks dd /\ prods dd' = prods dd /\
      (current dd <= current dd')%nat.

(** ** Well-formed deferred objects and the pass bound *)

(** The last check procedure always returns a size. *)
Definition last_check_total (cs : list check_fn) : Prop :=
  exists check, last cs = Some check /\ forall lp pos, is_Some (check lp pos).

(** An alternative has one size: whenever its check procedure accepts, it
    returns the same number. *)
Definition fixed_sizes (cs : list check_fn) : Prop :=
  forall i check lp pos lp' pos' s s',
    cs !! i = Some check ->
    check lp pos = Some s -> check lp' pos' = Some s' -> s = s'.

Definition well_formed_deferred (dd : deferred) : Prop :=
  (current dd < length (checks dd))%nat /\
  length (prods dd) = length (checks dd) /\
  last_check_total (checks dd) /\
  fixed_sizes (checks dd).




Definition labels_defined (ls : list nat) (lp : gmap nat Z) : Prop :=
  forall l, l ∈ ls -> is_Some (lp !! l).








(** Every label of the stream has its position set. *)
Definition stream_labels_placed (cb : CodeBlock) : Prop :=
  labels_defined (labels_of (code cb)) (labels cb).

(** ** The linker *)

(** Modelled from the spec: [writeToMemoryBlock] is a host function outside
    [asm.js]; the specification gives [write_byte(handle, offset, value)] as
    a bounds-checked byte accessor and makes a write past the end of the
    block a fatal error. *)
Definition writeToMemoryBlock (block : list Z) (index value : Z) : result (list Z) :=
  if (0 <=? index) && (index <? Z.of_nat (length block))
  then Ok (<[Z.to_nat index := value]> block)
  else Error "OutOfBoundsWrite".

(** An entry of [block.requiredArray] as [assembleToMachineCodeBlock]
    makes it: [getOffset()] returns [req_offset], and [linkValue()] calls
    the link object on the destination address that the entry closes
    over. *)
Record required : Type := mkRequired {
  req_offset : Z;
  req_dstAddr : Z;
  req_linkObj : linkObj
}.

Definition req_linkValue (r : required) : list Z :=
  linkValue (req_linkObj r) (req_dstAddr r).

(** A machine code block: its bytes and its required objects. *)
Record mcblock : Type := mkMcblock {
  mc_bytes : list Z;
  mc_requiredArray : list required
}.

(** The inner [for] of [asm.link]: [bytes] is what is left from index [i]
    on. *)
Fixpoint link_write (block : list Z) (offset i : Z) (bytes : list Z)
  : result (list Z) :=
  match bytes with
  | [] => Ok block
  | b :: rest =>
      block' ← writeToMemoryBlock block (offset + i) b;
      link_write block' offset (i + 1) rest
  end.

(** The outer [for] of [asm.link], over the iterator of the required
    objects. *)
Fixpoint link_sites (block : list Z) (sites : list required) : result (list Z) :=
  match sites with
  | [] => Ok block
  | r :: rest =>
      block' ← link_write block (req_offset r) 0 (req_linkValue r);
      link_sites block' rest
  end.

Definition link (mcb : mcblock) : result mcblock :=
  block ← link_sites (mc_bytes mcb) (mc_requiredArray mcb);
  Ok (mkMcblock block (mc_requiredArray mcb)).

(** What writing [bytes] at [offset] makes of a block. *)
Definition patch (block : list Z) (offset : Z) (bytes : list Z) : list Z :=
  take (Z.to_nat offset) block ++ bytes
    ++ drop (Z.to_nat offset + length bytes) block.

Definition site_in_bounds (block : list Z) (r : required) : Prop :=
  0 <= req_offset r /\
  req_offset r + Z.of_nat (length (req_linkValue r)) <= Z.of_nat (length block).

(** ** [asm.address] *)

(** [addrElemArray] holds the 16-bit limbs, least significant first. *)
Record address : Type := mkAddress {
  addrElemArray : list Z;
  addr_bigEndian : bool
}.

(** The loop of the constructor: limb [i] is
    [(byteArray[2i+1] << 8) + byteArray[2i]]. *)
Fixpoint limbs_of_bytes (byteArray : list Z) : list Z :=
  match byteArray with
  | b0 :: b1 :: rest => (js_shl b1 8 + b0) :: limbs_of_bytes rest
  | _ => []
  end.

Definition new_address (byteArray : list Z) (be : bool) : result address :=
  if bool_decide (length byteArray = 4%nat \/ length byteArray = 8%nat)
  then Ok (mkAddress (limbs_of_bytes (if be then reverse byteArray else byteArray)) be)
  else Error "Address must be 4 or 8 bytes long".

Definition nullAddr (width : Z) (be : bool) : result address :=
  new_address (if width =? 32 then [0; 0; 0; 0] else [0; 0; 0; 0; 0; 0; 0; 0]) be.

Definition width (a : address) : Z :=
  if bool_decide (length (addrElemArray a) = 2%nat) then 32 else 64.

(** The [while] of [addOffset] for a non-negative [n]: [rest] is what is
    left of the limbs from index [i] on, and running out of limbs while
    the loop goes on is the failed assertion [i < length]. The limbs not
    reached are those of the copy. *)
Fixpoint addOffset_loop (rest : list Z) (opnd carry : Z) : result (list Z) :=
  if (0 <? opnd) || negb (carry =? 0) then
    match rest with
    | [] => Error "Address overflow"
    | x :: rest' =>
        let res := x + js_and opnd 65535 + carry in
        out ← addOffset_loop rest' (js_shr opnd 16) (js_shr res 16);
        Ok (js_and res 65535 :: out)
    end
  else Ok rest.

(** The [while] of [subOffset] for a non-negative [n], at index [i]. Past
    the last limb, [this.addrElemArray[i]] is [undefined] and [res] is
    [NaN]: [res >= 0] is false, the [else] branch stores [NaN] beyond the
    end of the copy (left out here: nothing reads it) and sets [carry] to
    -1. The assertion stands after the loop. *)
Fixpoint subOffset_loop (fuel : nat) (this newAddr : list Z) (opnd carry : Z)
    (i : nat) : result (list Z) :=
  if (0 <? opnd) || negb (carry =? 0) then
    match fuel with
    | O => OutOfFuel
    | S fuel' =>
        match this !! i with
        | Some x =>
            let res := x - js_and opnd 65535 + carry in
            if 0 <=? res
            then subOffset_loop fuel' this (<[i := res]> newAddr)
                   (js_shr opnd 16) 0 (S i)
            else subOffset_loop fuel' this (<[i := res + 65536]> newAddr)
                   (js_shr opnd 16) (-1) (S i)
        | None =>
            subOffset_loop fuel' this newAddr (js_shr opnd 16) (-1) (S i)
        end
    end
  else if (opnd =? 0) && (carry =? 0) then Ok newAddr
  else Error "Address underflow".

Definition addOffset_nonneg (a : address) (n : Z) : result address :=
  limbs ← addOffset_loop (addrElemArray a) n 0;
  Ok (mkAddress limbs (addr_bigEndian a)).

Definition subOffset_nonneg (fuel : nat) (a : address) (n : Z) : result address :=
  limbs ← subOffset_loop fuel (addrElemArray a) (addrElemArray a) n 0 0;
  Ok (mkAddress limbs (addr_bigEndian a)).

(** [addOffset] and [subOffset]: a negative [n] goes to the other one
    with [-n]. *)
Definition addOffset (fuel : nat) (a : address) (n : Z) : result address :=
  if n <? 0 then subOffset_nonneg fuel a (- n) else addOffset_nonneg a n.

Definition subOffset (fuel : nat) (a : address) (n : Z) : result address :=
  if n <? 0 then addOffset_nonneg a (- n) else subOffset_nonneg fuel a n.

(** The [for] of [addAddress]. A limb missing in [addr] is [undefined]:
    [res] is [NaN], and both [NaN >> 16] and [NaN & 0xFFFF] are 0. *)
Fixpoint addAddress_loop (this addr : list Z) (carry : Z) : list Z :=
  match this with
  | [] => []
  | x :: this' =>
      match addr with
      | y :: addr' =>
          let res := x + y + carry in
          js_and res 65535 :: addAddress_loop this' addr' (js_shr res 16)
      | [] => 0 :: addAddress_loop this' [] 0
      end
  end.

Definition addAddress (a addr : address) : result address :=
  if width a =? width addr
  then Ok (mkAddress (addAddress_loop (addrElemArray a) (addrElemArray addr) 0)
             (addr_bigEndian a))
  else Error "both addresses must have the same width".

(** [complement]: every limb is taken from 0xFFFF, and the result is
    [newAddr.addOffset(1)]. *)
Definition complement (a : address) : result address :=
  addOffset_nonneg
    (mkAddress (map (fun x => 65535 - x) (addrElemArray a)) (addr_bigEndian a)) 1.

(** [getBytes]: two bytes a limb, low byte first, reversed as a whole
    for big endian. *)
Definition getBytes (a : address) (be : bool) : list Z :=
  let bytes :=
    flat_map (fun x => [js_and x 255; js_and (js_shr x 8) 255]) (addrElemArray a) in
  if be then reverse bytes else bytes.

Definition getAddrOffsetBytes (a addr : address) (be : bool) : result (list Z) :=
  if width a =? 32 then
    if width a =? width addr then
      c ← complement a;
      s ← addAddress addr c;
      Ok (getBytes s be)
    else Error "both addresses must have the same width"
  else Error "64 bits offsets are not supported".

(** [cmp]: the limbs are compared from the most significant one down. *)
Fixpoint cmp_loop (this addr : list Z) : Z :=
  match this, addr with
  | x :: this', y :: addr' =>
      if x <? y then -1 else if y <? x then 1 else cmp_loop this' addr'
  | _, _ => 0
  end.

Definition cmp (a addr : address) : result Z :=
  if width a =? width addr
  then Ok (cmp_loop (reverse (addrElemArray a)) (reverse (addrElemArray addr)))
  else Error "both addresses must have the same width".

(** The number that the limbs stand for, and the addresses that the
    constructor makes from bytes: 2 or 4 limbs of 16 bits. *)
Fixpoint limbs_value (limbs : list Z) : Z :=
  match limbs with
  | [] => 0
  | x :: rest => x + 65536 * limbs_value rest
  end.

Definition addr_value (a : address) : Z := limbs_value (addrElemArray a).

Definition limb (x : Z) : Prop := 0 <= x < 65536.

Definition well_formed_address (a : address) : Prop :=
  Forall limb (addrElemArray a) /\
  (length (addrElemArray a) = 2%nat \/ length (addrElemArray a) = 4%nat).

(** ** Example blocks *)

(** A short jump to label [l] takes 2 bytes and reaches at most 3 bytes
    ahead; the long form takes 5 bytes and always applies. *)
Definition near_check (l : nat) : check_fn :=
  fun lp pos =>
    match lp !! l with
    | Some p => if p - pos <=? 3 then Some 2 else None
    | None => None
    end.

Definition far_check : check_fn := fun _ _ => Some 5.

Definition near_prod (l : nat) : prod_fn :=
  fun lp pos => [0x34; default 0 (lp !! l) - pos].

Definition far_prod (l : nat) : prod_fn :=
  fun lp pos => [0x35; default 0 (lp !! l) - pos; 0; 0; 0].

Definition jump (l : nat) : deferred :=
  mkDeferred [near_check l; far_check] [near_prod l; far_prod l] 0 0.

(** Two jumps to a label that follows them and two bytes. *)
Definition relax_block : CodeBlock :=
  mkCodeBlock 0 false false [DEF 0; DEF 1; Num 0; Num 0; LBL 1]
    {[1%nat := 0]} {[0%nat := jump 1; 1%nat := jump 1]} [] [].

Definition relax_fixups : list (Z * item) :=
  fst (build_fixups (code relax_block) 0 (startPos relax_block) (labels relax_block)).

Definition relax_state (n : nat) : gmap nat Z * gmap nat deferred :=
  match run_passes n relax_fixups 0
          (snd (build_fixups (code relax_block) 0 0 (labels relax_block)))
          (deferreds relax_block) with
  | Ok s => s
  | _ => (∅, ∅)
  end.

Definition relax_assembled : Z * CodeBlock :=
  match assemble 4 relax_block with
  | Ok r => r
  | _ => (0, relax_block)
  end.





(** The 32-bit addresses 0, 5 and 0xFFFFFFFC. *)
Definition addr_zero : address := mkAddress [0; 0] false.

Definition addr_five : address := mkAddress [5; 0] false.

Definition addr_top : address := mkAddress [65532; 65535] false.

(** A machine code block of 8 zero bytes with one required site at
    offset 4, whose link object declares 32 bits and returns 2 bytes. *)
Definition short_link : linkObj := mkLinkObj 32 (fun _ => [170; 187]).

Definition short_site_block : mcblock :=
  mkMcblock [0; 0; 0; 0; 0; 0; 0; 0] [mkRequired 4 4100 short_link].

(** One deferred object whose check procedure announces 2 bytes and
    whose production procedure emits 1. *)
Definition misfit_block : CodeBlock :=
  mkCodeBlock 0 false false [DEF 0] ∅
    {[0%nat := mkDeferred [fun _ _ => Some 2] [fun _ _ => [0x90]] 0 0]} [] [].

(** ** Bytes of a number *)

(** Byte [i] of [n], as the emitters take it: [n] shifted right by [8*i]
    bits and masked with 0xff. *)
Definition byte_of (n : Z) (i : nat) : Z :=
  num_and (num_shift n (- (8 * Z.of_nat i))) 255.

(** The [k] low bytes of [n], least significant first. *)
Definition le_bytes (k : nat) (n : Z) : list Z := map (byte_of n) (seq 0 k).

(** The number that bytes stand for, least significant first. *)
Fixpoint bytes_value (bs : list Z) : Z :=
  match bs with
  | [] => 0
  | b :: rest => b + 256 * bytes_value rest
  end.

(** The order in which a block emits the bytes of a number. *)
Definition in_block_order (cb : CodeBlock) (bs : list Z) : list Z :=
  if bigEndian cb then reverse bs else bs.


(** The texts of the listings of a stream, in order. *)
Definition listings_of (c : list item) : list string :=
  omap (fun it => match it with LST text => Some text | _ => None end) c.

(** Every deferred object of the stream is an object of the block. *)
Definition deferreds_present (cb : CodeBlock) : Prop :=
  forall d, d ∈ deferreds_of (code cb) -> is_Some (deferreds cb !! d).

(** From [current] on, no check procedure of [dd] ever applies. *)
Definition never_applies (dd : deferred) : Prop :=
  forall i check lp pos,
    (current dd <= i)%nat -> checks dd !! i = Some check -> check lp pos = None.

(** A block with one deferred object whose only check procedure always
    returns [null]. *)
Definition stuck_block : CodeBlock :=
  mkCodeBlock 0 false false [Num 144; DEF 0]
    ∅ {[0%nat := mkDeferred [fun _ _ => None] [fun _ _ => []] 0 0]} [] [].

(** In the walk of a stream without deferred objects from position [pos],
    the label [l] stands at position [q]. *)
Fixpoint code_label_at (c : list item) (pos : Z) (l : nat) (q : Z) : Prop :=
  match c with
  | [] => False
  | Num _ :: r => code_label_at r (pos + 1) l q
  | LBL l' :: r => (l' = l /\ q = pos) \/ code_label_at r pos l q
  | _ :: r => code_label_at r pos l q
  end.

(** The same in the walk of a fixup list. *)
Fixpoint fixup_label_at (fl : list (Z * item)) (pos : Z) (l : nat) (q : Z) : Prop :=
  match fl with
  | [] => False
  | (span, LBL l') :: r =>
      (l' = l /\ q = pos + span) \/ fixup_label_at r (pos + span) l q
  | (span, _) :: r => fixup_label_at r (pos + span) l q
  end.

(** A block with a listing, a byte and a deferred object of one byte. *)
Definition listed_block : CodeBlock :=
  mkCodeBlock 0 false false [LST "nop"; Num 144; DEF 0; LBL 7] ∅
    {[0%nat := mkDeferred [fun _ _ => Some 1] [fun _ _ => [0x90]] 0 0]} [] [].

(** A block that holds the label 3 twice, one byte apart. *)
Definition twice_block : CodeBlock :=
  mkCodeBlock 0 false false [LBL 3; Num 144; LBL 3] ∅ ∅ [] [].

(** ** [listingString] *)


Definition posWidth : Z := 6.


Definition digits : list string :=
  ["0"; "1"; "2"; "3"; "4"; "5"; "6"; "7"; "8"; "9"; "a"; "b"; "c"; "d"; "e"; "f"].

(** [digits[d]]: [None] is [undefined]. *)
Definition printDigit (d : Z) : option string :=
  if d <? 0 then None else digits !! Z.to_nat d.

(** [Array.prototype.join] with the empty separator, on an array whose
    entries are strings, holes or [undefined]: the last two give
    nothing. *)
Definition join (s : list (option string)) : string :=
  foldr (fun x acc => default EmptyString x +:+ acc) EmptyString s.


(** The [for] of [printPos], from [i = posWidth - 1] down: [s] holds the
    entries above [i]. *)
Fixpoint printPos_loop (n : nat) (p : Z) (s : list (option string))
  : list (option string) :=
  match n with
  | O => s
  | S n' => printPos_loop n' (js_shr p 4) (printDigit (Z.rem p 16) :: s)
  end.

Definition printPos (p : Z) : string :=
  join (printPos_loop (Z.to_nat posWidth) p []).










(** ** Exact arithmetic *)

(** Positions, spans and sizes are JavaScript numbers in the code and
    integers here. A number holds every integer of magnitude at most 2^53,
    and the sum of two of them is exact when it is one of them again;
    beyond 2^53 a sum is rounded ([pos + 1] is [pos] at 2^53). The walks
    of [assemble], the procedures of [align] and the loop of
    [listingString] follow the code as long as every sum they make stays
    in that range. *)
Definition safe_integer (z : Z) : Prop := Z.abs z <= 2 ^ 53.

(** [M] bounds the size field of every deferred object of the stream and
    every size that one of its check procedures returns. *)
Definition sizes_within (M : Z) (cb : CodeBlock) : Prop :=
  forall d dd, d ∈ deferreds_of (code cb) -> deferreds cb !! d = Some dd ->
    Z.abs (size dd) <= M /\
    forall check lp pos s, check ∈ checks dd -> check lp pos = Some s -> Z.abs s <= M.

(** A bound under which every position of every pass of [assemble] is a
    safe integer: each walk starts at [startPos] and moves by 1 over a
    number of the stream and by at most twice the magnitude of a size over
    a deferred object (the sizing pass adds the previous size twice when
    the size has changed). *)
Definition exact_positions (cb : CodeBlock) : Prop :=
  exists M,
    0 <= M /\ sizes_within M cb /\
    Z.abs (startPos cb) + count_numbers (code cb)
      + 2 * M * Z.of_nat (length (deferreds_of (code cb))) <= 2 ^ 53.

(** What the emission loop puts in the place of one item met at position
    [pos]: a number and a listing stay, a label goes, and a deferred
    object gives way to the bytes of its production procedure at
    [current]. *)
Definition replace_item (lp : gmap nat Z) (ds : gmap nat deferred) (pos : Z)
    (it : item) : list item :=
  match it with
  | Num n => [Num n]
  | LST text => [LST text]
  | LBL _ => []
  | DEF d =>
      match ds !! d with
      | Some dd =>
          match prods dd !! current dd with
          | Some prod => map (fun n => Num (num_and n 255)) (prod lp pos)
          | None => []
          end
      | None => []
      end
  end.

(** The stream with every item replaced in its place, the position moving
    by the byte width of each item. *)
Fixpoint replaced (c : list item) (lp : gmap nat Z) (ds : gmap nat deferred)
    (pos : Z) : list item :=
  match c with
  | [] => []
  | it :: r => replace_item lp ds pos it ++ replaced r lp ds (pos + item_width ds it)
  end.

(** A block that already holds a byte and the label 1. *)
Definition labelled_block : CodeBlock :=
  mkCodeBlock 0 false false [Num 144; LBL 1] {[1%nat := 0]} ∅ [] [].

(** A block whose deferred object is a jump to the label 0, which exists
    and is not placed. *)
Definition pending_jump_block : CodeBlock :=
  mkCodeBlock 0 false false [DEF 0] ∅ {[0%nat := jump 0]} [] [].

(** ** Reasoning about outcomes *)

Lemma bind_Ok {A B} (m : result A) (f : A -> result B) (b : B) :
  m ≫= f = Ok b -> exists a, m = Ok a /\ f a = Ok b.
Proof. destruct m as [a| |]; simpl; intros H; try discriminate. eauto. Qed.

Ltac inv_bind H :=
  let a := fresh "a" in
  let Ha := fresh "Hm" in
  apply bind_Ok in H; destruct H as (a & Ha & H).

(** ** The label pass *)

Lemma label_pass_true fl : forall lp ds pos lp' ch,
  label_pass fl lp ds pos true = Ok (lp', ch) -> ch = true.
Proof.
  induction fl as [|[span curr] r IH]; intros lp ds pos lp' ch H; simpl in H.
  - congruence.
  - destruct curr as [n|l|d|t]; eauto.
    + destruct (lp !! l) as [p|]; [|discriminate].
      destruct (p =? pos + span); eauto.
    + destruct (ds !! d); [eauto|discriminate].
Qed.

Lemma label_pass_false fl : forall lp ds pos ch lp',
  label_pass fl lp ds pos ch = Ok (lp', false) ->
  ch = false /\ lp' = lp /\ stable_labels fl lp ds pos.
Proof.
  induction fl as [|[span curr] r IH]; intros lp ds pos ch lp' H; simpl in H.
  - inversion H; subst. simpl. auto.
  - destruct curr as [n|l|d|t]; simpl.
    + eauto.
    + destruct (lp !! l) as [p|] eqn:El; [|discriminate].
      destruct (p =? pos + span) eqn:Ep.
      * apply Z.eqb_eq in Ep; subst p.
        destruct (IH _ _ _ _ _ H) as (-> & -> & Hs). auto.
      * apply label_pass_true in H. discriminate.
    + destruct (ds !! d) as [dd|] eqn:Ed; [|discriminate].
      destruct (IH _ _ _ _ _ H) as (-> & -> & Hs).
      unfold dsize. rewrite Ed. eauto.
    + eauto.
Qed.


(** The fixup list carries the walk of the stream: what is stable on the
    list is consistent on the stream. *)
Lemma build_fixups_consistent c : forall span p0 lp0 fl lp1 lp ds pos,
  build_fixups c span p0 lp0 = (fl, lp1) ->
  stable_labels fl lp ds pos ->
  consistent_walk c lp ds (pos + span).
Proof.
  induction c as [|it r IH]; intros span p0 lp0 fl lp1 lp ds pos Hb Hs; simpl in *.
  - exact I.
  - destruct it as [n|l|d|t]; simpl.
    + replace (pos + span + 1) with (pos + (span + 1)) by lia. eauto.
    + destruct (build_fixups r 0 p0 (<[l:=p0]> lp0)) as [fl' lp'] eqn:E.
      inversion Hb; subst. simpl in Hs. destruct Hs as [Hl Hs].
      split; [done|].
      replace (pos + span) with (pos + span + 0) at 1 by lia. eauto.
    + destruct (build_fixups r 0 p0 lp0) as [fl' lp'] eqn:E.
      inversion Hb; subst. simpl in Hs. destruct Hs as [_ Hs].
      replace (pos + span + dsize ds d) with (pos + span + dsize ds d + 0) by lia.
      eauto.
    + replace (pos + span + 0) with (pos + span) by lia. eauto.
Qed.

Lemma consistent_walk_label c : forall lp ds pos pre l post,
  consistent_walk c lp ds pos ->
  c = pre ++ LBL l :: post ->
  lp !! l = Some (pos + width_sum ds pre).
Proof.
  induction c as [|it r IH]; intros lp ds pos pre l post Hc Heq.
  - destruct pre; discriminate.
  - destruct pre as [|it' pre']; simpl in Heq; inversion Heq; subst.
    + simpl in Hc. destruct Hc as [Hl _]. simpl. rewrite Z.add_0_r. done.
    + simpl. rewrite Z.add_assoc.
      destruct it'; simpl in Hc |- *;
        try (eapply IH; [eassumption|reflexivity]).
      destruct Hc as [_ Hc]. rewrite Z.add_0_r.
      eapply IH; [eassumption|reflexivity].
Qed.

(** The loop ends on a pass in which nothing changed. *)
Lemma fixpoint_loop_stable fuel : forall fl start lp ds lp' ds',
  fixpoint_loop fuel fl start lp ds = Ok (lp', ds') ->
  stable_labels fl lp' ds' start.
Proof.
  induction fuel as [|fuel IH]; intros fl start lp ds lp' ds' H; simpl in H.
  - discriminate.
  - inv_bind H. destruct a as [[lp1 ds1] ch].
    destruct ch.
    + eauto.
    + inversion H; subst. unfold one_pass in Hm.
      inv_bind Hm. destruct a as [[ds2 p2] ch1].
      inv_bind Hm. destruct a as [lp2 ch2].
      inversion Hm; subst.
      apply label_pass_false in Hm1. destruct Hm1 as (_ & -> & Hs). done.
Qed.

(** ** The emission loop *)

Lemma emit_pos c : forall lp ds pos out p,
  emit c lp ds pos = Ok (out, p) -> p = pos + width_sum ds c.
Proof.
  induction c as [|it r IH]; intros lp ds pos out p H; simpl in H.
  - inversion H. simpl. lia.
  - destruct it as [n|l|d|t]; simpl.
    + inv_bind H. destruct a as [o q]. apply IH in Hm. inversion H. lia.
    + destruct (lp !! l) as [p0|]; [|discriminate].
      destruct (p0 =? pos); [|discriminate]. apply IH in H. lia.
    + unfold dsize. destruct (ds !! d) as [dd|]; [|discriminate].
      destruct (prods dd !! current dd); [|discriminate].
      inv_bind H. destruct a as [o q]. apply IH in Hm. inversion H. lia.
    + inv_bind H. destruct a as [o q]. apply IH in Hm. inversion H. lia.
Qed.

Lemma consistent_walk_emit c : forall lp ds pos msg,
  consistent_walk c lp ds pos ->
  emit c lp ds pos = Error msg -> msg <> "inconsistency detected"%string.
Proof.
  induction c as [|it r IH]; intros lp ds pos msg Hc H; simpl in H.
  - discriminate.
  - destruct it as [n|l|d|t]; simpl in Hc.
    + destruct (emit r lp ds (pos + 1)) as [[o q]| |] eqn:E; simpl in H;
        try discriminate. inversion H; subst. eauto.
    + destruct Hc as [Hl Hc]. rewrite Hl, Z.eqb_refl in H. eauto.
    + unfold dsize in Hc. destruct (ds !! d) as [dd|]; [|by inversion H].
      destruct (prods dd !! current dd); [|by inversion H].
      destruct (emit r lp ds (pos + size dd)) as [[o q]| |] eqn:E; simpl in H;
        try discriminate. inversion H; subst. eauto.
    + rewrite Z.add_0_r in Hc.
      destruct (emit r lp ds pos) as [[o q]| |] eqn:E; simpl in H;
        try discriminate. inversion H; subst. eauto.
Qed.

(** What a successful [assemble] is made of. *)
Lemma assemble_Ok fuel cb r cb' :
  assemble fuel cb = Ok (r, cb') ->
  exists fl lp0,
    build_fixups (code cb) 0 (startPos cb) (labels cb) = (fl, lp0) /\
    fixpoint_loop fuel fl (startPos cb) lp0 (deferreds cb)
      = Ok (labels cb', deferreds cb') /\
    emit (code cb) (labels cb') (deferreds cb') (startPos cb) = Ok (code cb', r) /\
    startPos cb' = startPos cb /\ bigEndian cb' = bigEndian cb /\
    useListing cb' = useListing cb /\ providedArray cb' = providedArray cb /\
    requiredArray cb' = requiredArray cb.
Proof.
  unfold assemble. intros H.
  destruct (build_fixups (code cb) 0 (startPos cb) (labels cb)) as [fl lp0] eqn:Eb.
  inv_bind H. destruct a as [lp ds]. inv_bind H. destruct a as [out p].
  inversion H; subst; simpl. exists fl, lp0. auto 10.
Qed.

Lemma assemble_consistent fuel cb r cb' :
  assemble fuel cb = Ok (r, cb') ->
  consistent_walk (code cb) (labels cb') (deferreds cb') (startPos cb).
Proof.
  intros H. apply assemble_Ok in H.
  destruct H as (fl & lp0 & Hb & Hl & _).
  apply fixpoint_loop_stable in Hl.
  pose proof (build_fixups_consistent _ _ _ _ _ _ _ _ _ Hb Hl) as Hc.
  rewrite Z.add_0_r in Hc. exact Hc.
Qed.

(** C1. When [assemble] succeeds on a block whose positions stay within
    the integers that a number holds exactly, every label of the stream
    ends with [pos] equal to [startPos] plus the byte widths of the items
    before it (numbers 1, listings 0, deferred objects their final size),
    and the emission walk finds every stored position equal to the walk
    position. *)
Theorem assemble_label_positions fuel cb r cb' :
  exact_positions cb ->
  assemble fuel cb = Ok (r, cb') ->
  (forall pre l post,
     code cb = pre ++ LBL l :: post ->
     labels cb' !! l = Some (startPos cb + width_sum (deferreds cb') pre)) /\
  consistent_walk (code cb) (labels cb') (deferreds cb') (startPos cb).
Proof.
  intros Hexact H. pose proof (assemble_consistent _ _ _ _ H) as Hc.
  split; [|exact Hc].
  intros pre l post Heq. eapply consistent_walk_label; eauto.
Qed.

(** ** Return value and byte count *)

Lemma count_numbers_app c1 c2 :
  count_numbers (c1 ++ c2) = count_numbers c1 + count_numbers c2.
Proof.
  induction c1 as [|it r IH]; simpl; [lia|].
  destruct it; rewrite ?IH; lia.
Qed.

Lemma count_numbers_gen8 (l : list Z) :
  count_numbers (map (fun n => Num (num_and n 255)) l) = Z.of_nat (length l).
Proof. induction l as [|x r IH]; simpl; [done|]. rewrite IH. lia. Qed.

Lemma count_numbers_emitted c :
  count_numbers c = Z.of_nat (length (emitted_bytes c)).
Proof.
  induction c as [|it r IH]; simpl; [done|].
  destruct it; simpl; rewrite IH; lia.
Qed.

Lemma emit_count c : forall lp ds pos out p,
  emit c lp ds pos = Ok (out, p) ->
  productions_fit c lp ds pos ->
  count_numbers out = width_sum ds c.
Proof.
  induction c as [|it r IH]; intros lp ds pos out p H Hf; simpl in H.
  - inversion H. done.
  - destruct it as [n|l|d|t]; simpl in Hf |- *.
    + inv_bind H. destruct a as [o q]. inversion H; subst. simpl.
      erewrite IH; eauto.
    + destruct (lp !! l) as [p0|]; [|discriminate].
      destruct (p0 =? pos); [|discriminate].
      rewrite Z.add_0_r in Hf. erewrite IH; eauto.
    + destruct Hf as [Hd Hf]. unfold dsize in *.
      destruct (ds !! d) as [dd|] eqn:Ed; [|discriminate].
      destruct (prods dd !! current dd) as [prod|] eqn:Ep; [|discriminate].
      inv_bind H. destruct a as [o q]. inversion H; subst.
      rewrite count_numbers_app, count_numbers_gen8.
      erewrite (Hd dd prod), IH; eauto.
    + inv_bind H. destruct a as [o q]. inversion H; subst. simpl.
      rewrite Z.add_0_r in Hf. erewrite IH; eauto.
Qed.

Lemma assemble_empty fuel cb :
  code cb = [] -> assemble (S fuel) cb = Ok (startPos cb, cb).
Proof.
  intros Hc. unfold assemble. rewrite Hc. simpl.
  destruct cb; simpl in *; subst; reflexivity.
Qed.

(** C2, as the code has it. The value that [assemble] returns is the final
    walk position, [startPos] plus the byte count: on a block whose
    positions stay within the integers that a number holds exactly, when
    every production procedure called appends as many bytes as its
    deferred object's size, it is [startPos + byteNb()] measured after
    assembly, [byteNb()] being the length of the emitted byte sequence; on
    an empty block [assemble] returns [startPos] and leaves the block as
    it was. *)
Theorem assemble_return_value fuel cb r cb' :
  exact_positions cb ->
  assemble fuel cb = Ok (r, cb') ->
  productions_fit (code cb) (labels cb') (deferreds cb') (startPos cb) ->
  r = startPos cb + byteNb cb' /\
  byteNb cb' = Z.of_nat (length (emitted_bytes (code cb'))) /\
  (code cb = [] -> r = startPos cb /\ cb' = cb).
Proof.
  intros Hexact H Hf. split; [|split].
  - destruct (assemble_Ok _ _ _ _ H) as (fl & lp0 & _ & _ & He & _).
    unfold byteNb. rewrite (emit_count _ _ _ _ _ _ He Hf).
    apply (emit_pos _ _ _ _ _ _ He).
  - apply count_numbers_emitted.
  - intros Hc. destruct fuel as [|fuel].
    + unfold assemble in H.
      destruct (build_fixups (code cb) 0 (startPos cb) (labels cb)).
      simpl in H. discriminate.
    + rewrite (assemble_empty fuel cb Hc) in H. inversion H. done.
Qed.

(** C2 as stated fails: an empty block at start position 5 makes
    [assemble] return 5, while its byte count is 0; and a block at start
    position 0 whose production procedure emits 1 byte where its check
    procedure announced 2 makes [assemble] return 2, while its byte count
    is 1. *)
Lemma assemble_return_not_byte_count :
  (assemble 1 (new_CodeBlock 5 false false) = Ok (5, new_CodeBlock 5 false false) /\
   byteNb (new_CodeBlock 5 false false) = 0) /\
  (exists cb', assemble 2 misfit_block = Ok (2, cb') /\ byteNb cb' = 1).
Proof.
  split; [split; reflexivity|]. eexists. split; reflexivity.
Qed.

(** ** The stream after assembly *)

Lemma num_and_255_range n : 0 <= num_and n 255 <= 255.
Proof.
  unfold num_and. change (Z.land n 255) with (Z.land n (Z.ones 8)).
  rewrite Z.land_ones by lia.
  pose proof (Z.mod_pos_bound n (2 ^ 8) ltac:(lia)). lia.
Qed.

Lemma gen8_number_in_range n cb :
  Forall number_in_range (code cb) -> Forall number_in_range (code (gen8 n cb)).
Proof.
  intros H. unfold gen8, extend; simpl. apply Forall_app. split; [done|].
  constructor; [|constructor]. apply num_and_255_range.
Qed.

Lemma emit_byte_or_listing c : forall lp ds pos out p,
  Forall number_in_range c ->
  emit c lp ds pos = Ok (out, p) ->
  Forall byte_or_listing out.
Proof.
  induction c as [|it r IH]; intros lp ds pos out p Hr H; simpl in H.
  - inversion H. constructor.
  - inversion Hr as [|? ? Hit Hr']; subst.
    destruct it as [n|l|d|t].
    + inv_bind H. destruct a as [o q]. inversion H; subst.
      constructor; eauto.
    + destruct (lp !! l) as [p0|]; [|discriminate].
      destruct (p0 =? pos); [|discriminate]. eauto.
    + destruct (ds !! d) as [dd|]; [|discriminate].
      destruct (prods dd !! current dd) as [prod|]; [|discriminate].
      inv_bind H. destruct a as [o q]. inversion H; subst.
      apply Forall_app. split; [|eauto].
      apply Forall_map. apply Forall_forall. intros x _. apply num_and_255_range.
    + inv_bind H. destruct a as [o q]. inversion H; subst.
      constructor; [exact I|eauto].
Qed.

Lemma build_fixups_assembled c : forall span pos lp,
  Forall byte_or_listing c -> build_fixups c span pos lp = ([], lp).
Proof.
  induction c as [|it r IH]; intros span pos lp H; simpl; [done|].
  inversion H as [|? ? Hit Hr]; subst.
  destruct it; simpl in Hit; try contradiction; eauto.
Qed.

Lemma emit_assembled c : forall lp ds pos,
  Forall byte_or_listing c -> emit c lp ds pos = Ok (c, pos + count_numbers c).
Proof.
  induction c as [|it r IH]; intros lp ds pos H; simpl.
  - by rewrite Z.add_0_r.
  - inversion H as [|? ? Hit Hr]; subst.
    destruct it; simpl in Hit; try contradiction; rewrite IH by done; simpl.
    + by rewrite Z.add_assoc.
    + done.
Qed.

Lemma assemble_assembled fuel cb :
  Forall byte_or_listing (code cb) ->
  assemble (S fuel) cb = Ok (startPos cb + byteNb cb, cb).
Proof.
  intros H. unfold assemble.
  rewrite (build_fixups_assembled _ _ _ _ H). simpl.
  rewrite (emit_assembled _ _ _ _ H). simpl.
  destruct cb; reflexivity.
Qed.

(** The bytes that stand where a deferred object stood are those of
    its production procedure at [current], called at the walk position. *)
Lemma emit_deferred_bytes pre : forall lp ds pos out p d post,
  emit (pre ++ DEF d :: post) lp ds pos = Ok (out, p) ->
  exists out_pre out_post dd prod,
    ds !! d = Some dd /\ prods dd !! current dd = Some prod /\
    emit pre lp ds pos = Ok (out_pre, pos + width_sum ds pre) /\
    out = out_pre
          ++ map (fun n => Num (num_and n 255)) (prod lp (pos + width_sum ds pre))
          ++ out_post.
Proof.
  induction pre as [|it pre IH]; intros lp ds pos out p d post H; simpl in H.
  - destruct (ds !! d) as [dd|] eqn:Ed; [|discriminate].
    destruct (prods dd !! current dd) as [prod|] eqn:Ep; [|discriminate].
    inv_bind H. destruct a as [o q]. inversion H; subst.
    exists [], o, dd, prod. simpl. rewrite Z.add_0_r. auto.
  - destruct it as [n|l|e|t]; simpl.
    + inv_bind H. destruct a as [o q]. inversion H; subst.
      destruct (IH _ _ _ _ _ _ _ Hm) as (op & oq & dd & prod & ? & ? & He & ->).
      exists (Num n :: op), oq, dd, prod. rewrite He. simpl.
      rewrite <- !Z.add_assoc. auto.
    + destruct (lp !! l) as [p0|]; [|discriminate].
      destruct (p0 =? pos); [|discriminate].
      destruct (IH _ _ _ _ _ _ _ H) as (op & oq & dd & prod & ? & ? & He & ->).
      exists op, oq, dd, prod. rewrite Z.add_0_l. auto.
    + unfold dsize. destruct (ds !! e) as [de|] eqn:Ee; [|discriminate].
      destruct (prods de !! current de) as [pe|] eqn:Epe; [|discriminate].
      inv_bind H. destruct a as [o q]. inversion H; subst.
      destruct (IH _ _ _ _ _ _ _ Hm) as (op & oq & dd & prod & ? & ? & He & ->).
      exists (map (fun n => Num (num_and n 255)) (pe lp pos) ++ op), oq, dd, prod.
      rewrite He. simpl. rewrite <- !Z.add_assoc, <- app_assoc. auto.
    + inv_bind H. destruct a as [o q]. inversion H; subst.
      destruct (IH _ _ _ _ _ _ _ Hm) as (op & oq & dd & prod & ? & ? & He & ->).
      exists (LST t :: op), oq, dd, prod. rewrite He. simpl.
      rewrite Z.add_0_l. auto.
Qed.

(** The emission loop builds the stream item by item: what stands for an
    item stands in the place of that item. *)
Lemma emit_replaced c : forall lp ds pos out p,
  emit c lp ds pos = Ok (out, p) -> out = replaced c lp ds pos.
Proof.
  induction c as [|it r IH]; intros lp ds pos out p H; simpl in H.
  - by inversion H.
  - destruct it as [n|l|d|t]; cbn [replaced replace_item item_width].
    + inv_bind H. destruct a as [o q]. inversion H; subst.
      by rewrite (IH _ _ _ _ _ Hm).
    + destruct (lp !! l) as [p0|]; [|discriminate].
      destruct (p0 =? pos); [|discriminate].
      rewrite Z.add_0_r. exact (IH _ _ _ _ _ H).
    + unfold dsize. destruct (ds !! d) as [dd|]; [|discriminate].
      destruct (prods dd !! current dd) as [prod|]; [|discriminate].
      inv_bind H. destruct a as [o q]. inversion H; subst.
      by rewrite (IH _ _ _ _ _ Hm).
    + inv_bind H. destruct a as [o q]. inversion H; subst.
      rewrite Z.add_0_r. by rewrite (IH _ _ _ _ _ Hm).
Qed.

Lemma replaced_app c1 : forall c2 lp ds pos,
  replaced (c1 ++ c2) lp ds pos
    = replaced c1 lp ds pos ++ replaced c2 lp ds (pos + width_sum ds c1).
Proof.
  induction c1 as [|it r IH]; intros c2 lp ds pos.
  - simpl. by rewrite Z.add_0_r.
  - cbn [app replaced width_sum]. rewrite IH, <- app_assoc. do 3 f_equal. lia.
Qed.

(** C10. After a successful [assemble] of a block whose numbers are bytes
    (as [gen8] leaves them) and whose positions stay within the integers
    that a number holds exactly, the stream holds only bytes in 0..255
    and listings, and it is the stream before with every item replaced in
    its place: a number and a listing by themselves, a label by nothing,
    and a deferred object by the bytes of its production at [current],
    called at the position of the object; so around the bytes of a
    deferred object stand what replaces the items before it and what
    replaces the items after it. Assembling the block again leaves it as
    it is. *)
Theorem assemble_leaves_bytes_and_listings fuel cb r cb' :
  Forall number_in_range (code cb) ->
  exact_positions cb ->
  assemble fuel cb = Ok (r, cb') ->
  Forall byte_or_listing (code cb') /\
  code cb' = replaced (code cb) (labels cb') (deferreds cb') (startPos cb) /\
  (forall pre d post,
     code cb = pre ++ DEF d :: post ->
     exists dd prod,
       deferreds cb' !! d = Some dd /\ prods dd !! current dd = Some prod /\
       code cb'
         = replaced pre (labels cb') (deferreds cb') (startPos cb)
             ++ map (fun n => Num (num_and n 255))
                  (prod (labels cb') (startPos cb + width_sum (deferreds cb') pre))
             ++ replaced post (labels cb') (deferreds cb')
                  (startPos cb + width_sum (deferreds cb') pre + size dd)) /\
  (safe_integer (startPos cb' + byteNb cb') ->
   forall fuel', assemble (S fuel') cb' = Ok (startPos cb' + byteNb cb', cb')).
Proof.
  intros Hr Hexact H.
  destruct (assemble_Ok _ _ _ _ H) as (fl & lp0 & _ & _ & He & _).
  pose proof (emit_byte_or_listing _ _ _ _ _ _ Hr He) as Hb.
  pose proof (emit_replaced _ _ _ _ _ _ He) as Hrep.
  split; [exact Hb|]. split; [exact Hrep|]. split.
  - intros pre d post Hc. rewrite Hc in He.
    destruct (emit_deferred_bytes _ _ _ _ _ _ _ _ He)
      as (op & oq & dd & prod & Hdd & Hprod & _ & _).
    exists dd, prod. split; [exact Hdd|]. split; [exact Hprod|].
    rewrite Hrep, Hc, replaced_app. cbn [replaced replace_item item_width].
    unfold dsize. rewrite Hdd, Hprod. reflexivity.
  - intros _ fuel'. by apply assemble_assembled.
Qed.

(** ** The sizing pass *)

Lemma try_checks_spec cs : forall lp pos cur cur' r,
  try_checks cs lp pos cur = (cur', r) ->
  (cur <= cur')%nat /\
  (forall i, (cur <= i < cur')%nat ->
     exists check, cs !! (i - cur)%nat = Some check /\ check lp pos = None) /\
  match r with
  | Some s => exists check, cs !! (cur' - cur)%nat = Some check /\ check lp pos = Some s
  | None => cur' = (cur + length cs)%nat
  end.
Proof.
  induction cs as [|c cs IH]; intros lp pos cur cur' r H; simpl in H.
  - inversion H; subst. split; [lia|]. split; [intros i Hi; lia|]. simpl. lia.
  - destruct (c lp pos) as [s|] eqn:Ec.
    + inversion H; subst. split; [lia|]. split; [intros i Hi; lia|].
      exists c. rewrite Nat.sub_diag. done.
    + apply IH in H. destruct H as (Hle & Hrej & Hres).
      split; [lia|]. split.
      * intros i Hi. destruct (decide (i = cur)) as [->|Hne].
        -- exists c. rewrite Nat.sub_diag. done.
        -- destruct (Hrej i ltac:(lia)) as (ck & Hck & Hn). exists ck.
           replace (i - cur)%nat with (S (i - S cur)) by lia. done.
      * destruct r as [s|].
        -- destruct Hres as (ck & Hck & Hs). exists ck.
           replace (cur' - cur)%nat with (S (cur' - S cur)) by lia. done.
        -- simpl. lia.
Qed.

Lemma size_deferred_spec lp pos d d' pos' ch :
  size_deferred lp pos d = Ok (d', pos', ch) ->
  checks d' = checks d /\ prods d' = prods d /\
  (current d <= current d')%nat /\
  (forall i, (current d <= i < current d')%nat ->
     exists check, checks d !! i = Some check /\ check lp pos = None) /\
  (exists check, checks d !! current d' = Some check /\ check lp pos = Some (size d')) /\
  ch = negb (size d =? size d') /\
  pos' = (if ch then pos + size d + size d else pos + size d).
Proof.
  unfold size_deferred. intros H.
  destruct (try_checks (drop (current d) (checks d)) lp pos (current d))
    as [cur r] eqn:Et.
  apply try_checks_spec in Et. destruct Et as (Hle & Hrej & Hres).
  destruct r as [s|]; [|discriminate].
  destruct Hres as (ck & Hck & Hs). rewrite lookup_drop in Hck.
  replace (current d + (cur - current d))%nat with cur in Hck by lia.
  assert (Hrej' : forall i, (current d <= i < cur)%nat ->
            exists check, checks d !! i = Some check /\ check lp pos = None).
  { intros i Hi. destruct (Hrej i Hi) as (c & Hc & Hn). exists c.
    rewrite lookup_drop in Hc.
    replace (current d + (i - current d))%nat with i in Hc by lia. done. }
  destruct (size d =? s) eqn:Es; inversion H; subst; simpl.
  - apply Z.eqb_eq in Es. rewrite Z.eqb_refl. simpl.
    repeat split; eauto. exists ck. by rewrite Es.
  - rewrite Es. simpl. repeat split; eauto.
Qed.

Lemma advanced_refl lp ds : advanced lp ds ds.
Proof.
  intros d dd Hd. exists dd. repeat split; auto. intros i Hi. lia.
Qed.

Lemma advanced_trans lp ds1 ds2 ds3 :
  advanced lp ds1 ds2 -> advanced lp ds2 ds3 -> advanced lp ds1 ds3.
Proof.
  intros H12 H23 d dd Hd.
  destruct (H12 d dd Hd) as (dd2 & Hd2 & Hc2 & Hp2 & Hle2 & Hr2).
  destruct (H23 d dd2 Hd2) as (dd3 & Hd3 & Hc3 & Hp3 & Hle3 & Hr3).
  exists dd3. repeat split; try congruence; try lia.
  intros i Hi. destruct (decide (i < current dd2)%nat).
  - apply Hr2. lia.
  - rewrite <- Hc2. apply Hr3. lia.
Qed.

Lemma advanced_insert lp pos ds d dd dd' pos' ch :
  ds !! d = Some dd ->
  size_deferred lp pos dd = Ok (dd', pos', ch) ->
  advanced lp ds (<[d := dd']> ds).
Proof.
  intros Hd Hs e ee He.
  apply size_deferred_spec in Hs.
  destruct Hs as (Hc & Hp & Hle & Hrej & _).
  destruct (decide (d = e)) as [->|Hne].
  - rewrite lookup_insert_eq. exists dd'.
    assert (ee = dd) by congruence. subst ee.
    repeat split; auto. intros i Hi.
    destruct (Hrej i Hi) as (c & Hck & Hn). eauto.
  - rewrite lookup_insert_ne by done. exists ee.
    repeat split; auto. intros i Hi. lia.
Qed.

Lemma sizing_pass_advanced fl : forall lp ds pos ch ds' pos' ch',
  sizing_pass fl lp ds pos ch = Ok (ds', pos', ch') -> advanced lp ds ds'.
Proof.
  induction fl as [|[span curr] r IH]; intros lp ds pos ch ds' pos' ch' H;
    simpl in H.
  - inversion H; subst. apply advanced_refl.
  - destruct curr as [n|l|d|t]; eauto.
    destruct (ds !! d) as [dd|] eqn:Ed; [|discriminate].
    inv_bind H. destruct a as [[dd1 p1] c1].
    eapply advanced_trans; [eapply advanced_insert; eauto|eauto].
Qed.

Lemma one_pass_Ok fl start lp ds lp' ds' ch :
  one_pass fl start lp ds = Ok (lp', ds', ch) ->
  exists p1 ch1,
    sizing_pass fl lp ds start false = Ok (ds', p1, ch1) /\
    label_pass fl lp ds' start ch1 = Ok (lp', ch).
Proof.
  unfold one_pass. intros H.
  inv_bind H. destruct a as [[ds1 p1] ch1].
  inv_bind H. destruct a as [lp1 ch2]. inversion H; subst. eauto.
Qed.

Lemma advanced_not_rewound lp ds ds' : advanced lp ds ds' -> not_rewound ds ds'.
Proof.
  intros H d dd Hd. destruct (H d dd Hd) as (dd' & ? & ? & ? & ? & _).
  exists dd'. auto.
Qed.

Lemma not_rewound_trans ds1 ds2 ds3 :
  not_rewound ds1 ds2 -> not_rewound ds2 ds3 -> not_rewound ds1 ds3.
Proof.
  intros H12 H23 d dd Hd.
  destruct (H12 d dd Hd) as (dd2 & Hd2 & Hc2 & Hp2 & Hle2).
  destruct (H23 d dd2 Hd2) as (dd3 & Hd3 & Hc3 & Hp3 & Hle3).
  exists dd3. repeat split; try congruence; lia.
Qed.

Lemma run_passes_not_rewound n : forall fl start lp ds lp' ds',
  run_passes n fl start lp ds = Ok (lp', ds') -> not_rewound ds ds'.
Proof.
  induction n as [|n IH]; intros fl start lp ds lp' ds' H; simpl in H.
  - inversion H; subst. eapply advanced_not_rewound, (advanced_refl ∅).
  - inv_bind H. destruct a as [[lp1 ds1] ch].
    apply one_pass_Ok in Hm. destruct Hm as (p1 & ch1 & Hs & _).
    eapply not_rewound_trans; [|eauto].
    eapply advanced_not_rewound, sizing_pass_advanced; eauto.
Qed.

(** The states that the loop goes through are those of [run_passes]. *)
Lemma fixpoint_loop_run_passes fuel : forall fl start lp ds lp' ds',
  fixpoint_loop fuel fl start lp ds = Ok (lp', ds') ->
  exists n, (1 <= n <= fuel)%nat /\ run_passes n fl start lp ds = Ok (lp', ds').
Proof.
  induction fuel as [|fuel IH]; intros fl start lp ds lp' ds' H; simpl in H.
  - discriminate.
  - inv_bind H. destruct a as [[lp1 ds1] ch]. destruct ch.
    + apply IH in H. destruct H as (n & Hn & Hr).
      exists (S n). split; [lia|]. simpl. rewrite Hm. simpl. done.
    + inversion H; subst. exists 1%nat. split; [lia|].
      simpl. rewrite Hm. simpl. done.
Qed.

(** C3. In the fix-point of [assemble], the [current] index of a deferred
    object never goes down: from the state after any number of
    iterations, one more iteration leaves [current] where it was or
    further, and every index it went past had its check procedure return
    [null]; so across any number of further iterations it is
    non-decreasing. *)
Theorem current_never_rewinds fl start lp ds :
  (forall lp' ds' ch,
     one_pass fl start lp ds = Ok (lp', ds', ch) -> advanced lp ds ds') /\
  (forall n lp' ds',
     run_passes n fl start lp ds = Ok (lp', ds') -> not_rewound ds ds').
Proof.
  split.
  - intros lp' ds' ch H. apply one_pass_Ok in H.
    destruct H as (p1 & ch1 & Hs & _). eapply sizing_pass_advanced; eauto.
  - intros n lp' ds' H. eapply run_passes_not_rewound; eauto.
Qed.

(** ** Convergence of the fix-point *)











Lemma label_pass_total fl : forall lp ds pos ch,
  labels_defined (labels_of (fixup_items fl)) lp ->
  (forall d, d ∈ deferreds_of (fixup_items fl) -> is_Some (ds !! d)) ->
  exists lp' ch',
    label_pass fl lp ds pos ch = Ok (lp', ch') /\
    forall l, is_Some (lp !! l) -> is_Some (lp' !! l).
Proof.
  induction fl as [|[span curr] r IH]; intros lp ds pos ch Hl Hd; simpl.
  - eauto.
  - destruct curr as [n|l|d|t]; simpl in Hl, Hd; try (apply IH; done).
    + destruct (Hl l ltac:(set_solver)) as [p Hp]. rewrite Hp.
      destruct (p =? pos + span).
      * apply IH; [|done]. intros x Hx. apply Hl. set_solver.
      * destruct (IH (<[l:=pos + span]> lp) ds (pos + span) true)
          as (lp' & ch' & Hr & Hdef); [| done |].
        { intros x Hx. destruct (decide (l = x)) as [->|Hne].
          - rewrite lookup_insert_eq. eauto.
          - rewrite lookup_insert_ne by done. apply Hl. set_solver. }
        exists lp', ch'. split; [done|]. intros x Hx. apply Hdef.
        destruct (decide (l = x)) as [->|Hne].
        -- rewrite lookup_insert_eq. eauto.
        -- by rewrite lookup_insert_ne.
    + destruct (Hd d ltac:(set_solver)) as [dd Hdd]. rewrite Hdd.
      apply IH; [done|]. intros x Hx. apply Hd. set_solver.
Qed.

Lemma label_pass_frame fl : forall lp ds pos ch lp' ch' l,
  label_pass fl lp ds pos ch = Ok (lp', ch') ->
  l ∉ labels_of (fixup_items fl) -> lp' !! l = lp !! l.
Proof.
  induction fl as [|[span curr] r IH]; intros lp ds pos ch lp' ch' l H Hl;
    simpl in H.
  - by inversion H.
  - destruct curr as [n|x|d|t]; simpl in Hl; eauto.
    + apply not_elem_of_cons in Hl. destruct Hl as [Hne Hl].
      destruct (lp !! x) as [p|]; [|discriminate].
      destruct (p =? pos + span); [eauto|].
      rewrite (IH _ _ _ _ _ _ _ H Hl). by rewrite lookup_insert_ne.
    + destruct (ds !! d); [eauto|discriminate].
Qed.


Lemma build_fixups_items c : forall span pos lp fl lp',
  build_fixups c span pos lp = (fl, lp') ->
  labels_of (fixup_items fl) = labels_of c /\
  deferreds_of (fixup_items fl) = deferreds_of c /\
  labels_defined (labels_of c) lp' /\
  (forall l, is_Some (lp !! l) -> is_Some (lp' !! l)).
Proof.
  induction c as [|it r IH]; intros span pos lp fl lp' H; simpl in H.
  - inversion H; subst. repeat split; auto. intros l Hl. simpl in Hl. set_solver.
  - destruct it as [n|l|d|t]; simpl.
    + eauto.
    + destruct (build_fixups r 0 pos (<[l:=pos]> lp)) as [fl1 lp1] eqn:E.
      inversion H; subst. destruct (IH _ _ _ _ _ E) as (Hl & Hd & Hdef & Hpres).
      simpl. rewrite Hl, Hd. repeat split; auto.
      * intros x Hx. apply elem_of_cons in Hx. destruct Hx as [->|Hx]; [|auto].
        apply Hpres. rewrite lookup_insert_eq. eauto.
      * intros x Hx. apply Hpres. destruct (decide (l = x)) as [->|Hne].
        -- rewrite lookup_insert_eq. eauto.
        -- by rewrite lookup_insert_ne.
    + destruct (build_fixups r 0 pos lp) as [fl1 lp1] eqn:E.
      inversion H; subst. destruct (IH _ _ _ _ _ E) as (Hl & Hd & Hdef & Hpres).
      simpl. rewrite Hl, Hd. auto.
    + eauto.
Qed.















(** C5, as the code has it. In the sizing pass the accepted alternative's
    size becomes the size field, and a change is recorded exactly when it
    differs from the previous size; the walk position moves on by the
    previous size, not by the new one: a deferred object whose previous
    size is 0, as in the first pass, leaves the position where it was
    whatever size it is given, and the position moves past the deferred
    object by exactly its updated size, once, when that size is the one
    it already had. The position and the previous size are integers that
    a number holds exactly, and so is their sum. *)
Theorem sizing_walk_advance lp pos d d' pos' ch :
  safe_integer pos -> safe_integer (size d) -> safe_integer (pos + size d) ->
  size_deferred lp pos d = Ok (d', pos', ch) ->
  (exists check,
     checks d !! current d' = Some check /\ check lp pos = Some (size d')) /\
  ch = negb (size d =? size d') /\
  (size d' = size d \/ size d = 0 -> pos' = pos + size d) /\
  (size d' = size d -> pos' = pos + size d').
Proof.
  intros Hpos0 Hsize Hsum H. apply size_deferred_spec in H.
  destruct H as (_ & _ & _ & _ & Hacc & Hch & Hpos).
  split; [exact Hacc|]. split; [exact Hch|].
  assert (size d' = size d \/ size d = 0 -> pos' = pos + size d) as Hold.
  { intros [Heq|Hzero].
    - rewrite Heq, Z.eqb_refl in Hch. subst ch. simpl in Hpos. lia.
    - destruct ch; lia. }
  split; [exact Hold|].
  intros Heq. rewrite Heq. apply Hold. by left.
Qed.

(** C5 as stated fails: a deferred object of size 0 whose check
    procedure accepts with size 2 leaves the walk position where it was,
    and one of size 2 that moves to its 5-byte alternative moves the walk
    position by 4. *)
Lemma sizing_walk_not_by_new_size :
  size_deferred {[1%nat := 2]} 0 (jump 1)
    = Ok (mkDeferred (checks (jump 1)) (prods (jump 1)) 0 2, 0, true) /\
  size_deferred {[1%nat := 6]} 0 (mkDeferred (checks (jump 1)) (prods (jump 1)) 0 2)
    = Ok (mkDeferred (checks (jump 1)) (prods (jump 1)) 1 5, 4, true).
Proof. split; reflexivity. Qed.

(** ** The theorems at work on the example blocks *)



(** The jumps of [relax_block] take 2 or 5 bytes: no position of any pass
    goes beyond 2 + 2 * 5 * 2. *)
Lemma jump_sizes l check lp pos s :
  check ∈ checks (jump l) -> check lp pos = Some s -> Z.abs s <= 5.
Proof.
  intros Hin Hs. simpl in Hin.
  apply elem_of_cons in Hin. destruct Hin as [->|Hin].
  - unfold near_check in Hs. destruct (lp !! l) as [p|]; [|discriminate].
    destruct (p - pos <=? 3); inversion Hs; lia.
  - apply list_elem_of_singleton in Hin. subst check. inversion Hs; lia.
Qed.

Lemma relax_block_exact_positions : exact_positions relax_block.
Proof.
  exists 5. split; [lia|]. split; [|simpl; lia].
  intros d dd Hd Hdd. simpl in Hd.
  assert (dd = jump 1) as ->.
  { apply elem_of_cons in Hd. destruct Hd as [->|Hd].
    - vm_compute in Hdd. by inversion Hdd.
    - apply list_elem_of_singleton in Hd. subst d.
      vm_compute in Hdd. by inversion Hdd. }
  split; [simpl; lia|]. intros check lp pos s. apply jump_sizes.
Qed.

(** [relax_block] assembles in four passes to 12 bytes, both jumps in
    their long form, and its label ends at position 12. *)
Lemma assemble_label_positions_witness :
  assemble 4 relax_block = Ok relax_assembled /\
  labels (snd relax_assembled) !! 1%nat = Some 12.
Proof.
  split; [reflexivity|].
  exact (proj1 (assemble_label_positions 4 relax_block (fst relax_assembled)
                  (snd relax_assembled) relax_block_exact_positions eq_refl)
           [DEF 0; DEF 1; Num 0; Num 0] 1%nat [] eq_refl).
Defined.

Lemma relax_block_productions_fit :
  productions_fit (code relax_block) (labels (snd relax_assembled))
    (deferreds (snd relax_assembled)) (startPos relax_block).
Proof.
  simpl. split; [|split; [|exact I]].
  - intros dd prod Hdd Hp. vm_compute in Hdd. inversion Hdd; subst dd.
    vm_compute in Hp. inversion Hp; subst prod. reflexivity.
  - intros dd prod Hdd Hp. vm_compute in Hdd. inversion Hdd; subst dd.
    vm_compute in Hp. inversion Hp; subst prod. reflexivity.
Qed.

Lemma assemble_return_value_witness :
  assemble 4 relax_block = Ok relax_assembled /\
  fst relax_assembled = 0 + byteNb (snd relax_assembled).
Proof.
  split; [reflexivity|].
  exact (proj1 (assemble_return_value 4 relax_block (fst relax_assembled)
                  (snd relax_assembled) relax_block_exact_positions eq_refl
                  relax_block_productions_fit)).
Defined.

(** In the second pass over [relax_block] the first jump moves from its
    short to its long alternative. *)
Lemma current_never_rewinds_witness :
  not_rewound (deferreds relax_block) (snd (relax_state 1)) /\
  advanced (fst (relax_state 1)) (snd (relax_state 1)) (snd (relax_state 2)).
Proof.
  split.
  - exact (proj2 (current_never_rewinds relax_fixups 0
                    (snd (build_fixups (code relax_block) 0 0 (labels relax_block)))
                    (deferreds relax_block))
             1%nat (fst (relax_state 1)) (snd (relax_state 1)) eq_refl).
  - exact (proj1 (current_never_rewinds relax_fixups 0
                    (fst (relax_state 1)) (snd (relax_state 1)))
             (fst (relax_state 2)) (snd (relax_state 2)) true eq_refl).
Defined.


(** A jump of size 0 that is given its 2-byte form leaves the position
    at 0; once its size is 2 and stays 2, the position moves by 2. *)
Lemma sizing_walk_advance_witness :
  (size_deferred {[1%nat := 2]} 0 (jump 1)
     = Ok (mkDeferred (checks (jump 1)) (prods (jump 1)) 0 2, 0, true) /\
   0 = 0 + 0) /\
  (size_deferred {[1%nat := 2]} 0 (mkDeferred (checks (jump 1)) (prods (jump 1)) 0 2)
     = Ok (mkDeferred (checks (jump 1)) (prods (jump 1)) 0 2, 2, false) /\
   2 = 0 + 2).
Proof.
  assert (forall z, 0 <= z <= 2 -> safe_integer z) as Hsafe
    by (intros z Hz; unfold safe_integer; lia).
  split; (split; [reflexivity|]).
  - exact (proj1 (proj2 (proj2 (sizing_walk_advance {[1%nat := 2]} 0
                         (jump 1)
                         (mkDeferred (checks (jump 1)) (prods (jump 1)) 0 2)
                         0 true (Hsafe 0 ltac:(lia)) (Hsafe 0 ltac:(lia))
                         (Hsafe 0 ltac:(lia)) eq_refl)))
             (or_intror eq_refl)).
  - exact (proj2 (proj2 (proj2 (sizing_walk_advance {[1%nat := 2]} 0
                         (mkDeferred (checks (jump 1)) (prods (jump 1)) 0 2)
                         (mkDeferred (checks (jump 1)) (prods (jump 1)) 0 2)
                         2 false (Hsafe 0 ltac:(lia)) (Hsafe 2 ltac:(lia))
                         (Hsafe 2 ltac:(lia)) eq_refl)))
             eq_refl).
Defined.

Lemma relax_block_numbers_in_range : Forall number_in_range (code relax_block).
Proof. repeat constructor; simpl; lia. Qed.

Lemma assemble_leaves_bytes_and_listings_witness :
  Forall byte_or_listing (code (snd relax_assembled)) /\
  code (snd relax_assembled)
    = replaced (code relax_block) (labels (snd relax_assembled))
        (deferreds (snd relax_assembled)) 0 /\
  assemble 1 (snd relax_assembled) = Ok (12, snd relax_assembled).
Proof.
  destruct (assemble_leaves_bytes_and_listings 4 relax_block (fst relax_assembled)
              (snd relax_assembled) relax_block_numbers_in_range
              relax_block_exact_positions eq_refl)
    as (Hb & Hrep & _ & Hagain).
  split; [exact Hb|]. split; [exact Hrep|].
  refine (Hagain _ 0%nat). unfold safe_integer. vm_compute. discriminate.
Defined.

(** ** The scenarios of the specification *)

(** Two-byte program. *)
Example two_byte_program :
  assemble 1 (gen8 195 (gen8 144 (new_CodeBlock 0 false false)))
    = Ok (2, gen8 195 (gen8 144 (new_CodeBlock 0 false false))) /\
  emitted_bytes (code (gen8 195 (gen8 144 (new_CodeBlock 0 false false))))
    = [144; 195].
Proof. split; reflexivity. Qed.

(** Three bytes, [align(8, 0, 0xCC)], one byte: nine bytes. *)
Example align_scenario :
  exists cb cb',
    align 8 0 204 (gen8 3 (gen8 2 (gen8 1 (new_CodeBlock 0 false false)))) = Ok cb /\
    assemble 2 (gen8 255 cb) = Ok (9, cb') /\
    emitted_bytes (code cb') = [1; 2; 3; 204; 204; 204; 204; 204; 255].
Proof. do 2 eexists. repeat split; reflexivity. Qed.

(** [relax_block] needs its four passes: the bound D*(A-1) + 2 is
    reached. *)
Example relax_block_three_passes : assemble 3 relax_block = OutOfFuel.
Proof. reflexivity. Qed.

(** ** What the emitters keep *)

Lemma labels_of_app c1 c2 : labels_of (c1 ++ c2) = labels_of c1 ++ labels_of c2.
Proof. unfold labels_of. apply omap_app. Qed.

Lemma deferreds_of_app c1 c2 :
  deferreds_of (c1 ++ c2) = deferreds_of c1 ++ deferreds_of c2.
Proof. unfold deferreds_of. apply omap_app. Qed.

(** [genLabel] refuses a label that already stands in the stream, so a
    stream built with it holds each label once. *)
Lemma genLabel_keeps_labels_once l cb cb' :
  NoDup (labels_of (code cb)) -> stream_labels_placed cb ->
  genLabel l cb = Ok cb' ->
  NoDup (labels_of (code cb')) /\ stream_labels_placed cb' /\
  code cb' = code cb ++ [LBL l].
Proof.
  intros Hnd Hpl H. unfold genLabel in H.
  destruct (labels cb !! l) as [p|] eqn:El; [discriminate|].
  inversion H; subst. unfold stream_labels_placed. simpl.
  rewrite labels_of_app. simpl.
  split; [|split; [|done]].
  - apply NoDup_app. split; [done|]. split; [|apply NoDup_singleton].
    intros x Hx Hx'. apply list_elem_of_singleton in Hx'. subst x.
    destruct (Hpl l Hx) as [p Hp]. congruence.
  - intros x Hx.
    apply elem_of_app in Hx. destruct Hx as [Hx|Hx].
    + destruct (decide (l = x)) as [->|Hne].
      * rewrite lookup_insert_eq. eauto.
      * rewrite lookup_insert_ne by done. by apply Hpl.
    + apply list_elem_of_singleton in Hx. subst x.
      rewrite lookup_insert_eq. eauto.
Qed.

Lemma genLabel_twice l cb cb' :
  genLabel l cb = Ok cb' -> genLabel l cb' = Error "label multiply defined".
Proof.
  unfold genLabel. destruct (labels cb !! l); [discriminate|].
  intros H. inversion H; subst. simpl. by rewrite lookup_insert_eq.
Qed.

(** A deferred object as its constructor leaves it is well formed as soon
    as its check procedures are. *)
Lemma new_deferred_well_formed cs ps d :
  new_deferred cs ps = Ok d ->
  last_check_total cs -> fixed_sizes cs -> well_formed_deferred d.
Proof.
  unfold new_deferred. intros H Hlast Hfix.
  destruct (bool_decide (1 <= length cs)%nat) eqn:E1; [|discriminate].
  destruct (bool_decide (1 <= length ps)%nat) eqn:E2; [|discriminate].
  destruct (bool_decide (length cs = length ps)) eqn:E3; [|discriminate].
  apply bool_decide_eq_true in E1, E3. inversion H; subst.
  unfold well_formed_deferred. simpl. auto.
Qed.

(** [align]: for a positive [multiple], the padding brings the position
    to the next one congruent to [offset]. *)
Lemma align_mod_spec dividend divisor :
  0 < divisor ->
  0 <= align_mod dividend divisor < divisor /\
  (dividend - align_mod dividend divisor) mod divisor = 0.
Proof.
  intros Hd. unfold align_mod.
  pose proof (Z.rem_bound_abs dividend divisor ltac:(lia)) as Hb.
  pose proof (Z.quot_rem dividend divisor ltac:(lia)) as Hqr.
  destruct (Z.rem dividend divisor <? 0) eqn:E.
  - apply Z.ltb_lt in E. split; [lia|].
    replace (dividend - (divisor + Z.rem dividend divisor))
      with ((Z.quot dividend divisor - 1) * divisor) by lia.
    apply Z.mod_mul. lia.
  - apply Z.ltb_ge in E. split; [lia|].
    replace (dividend - Z.rem dividend divisor)
      with (Z.quot dividend divisor * divisor) by lia.
    apply Z.mod_mul. lia.
Qed.

(** The procedures of [align(multiple, offset, fill)], for a positive
    [multiple] and a position and an offset that are integers a number
    holds exactly, with [-pos + offset] one too: the check procedure
    returns a size below [multiple] that brings the position to [offset]
    modulo [multiple], and the production procedure emits that many
    times [fill]. *)
Lemma align_padding multiple offset fill lp pos n :
  0 < multiple -> safe_integer multiple ->
  safe_integer pos -> safe_integer offset -> safe_integer (- pos + offset) ->
  align_nb_bytes multiple offset lp pos = Some n ->
  0 <= n < multiple /\
  (pos + n - offset) mod multiple = 0 /\
  align_add_bytes multiple offset fill lp pos = replicate (Z.to_nat n) fill.
Proof.
  intros Hm Hsm Hsp Hso Hsd H. unfold align_nb_bytes in H. inversion H; subst.
  destruct (align_mod_spec (- pos + offset) multiple Hm) as [Hb Hz].
  split; [done|]. split; [|reflexivity].
  set (m := align_mod (- pos + offset) multiple) in *.
  replace (pos + m - offset) with (- (- pos + offset - m)) by lia.
  apply Z.mod_opp_l_z; [lia|done].
Qed.

Lemma genLabel_twice_witness :
  genLabel 3 (extend (LBL 3) (set_labels (new_CodeBlock 0 false false) {[3%nat := 0]}))
    = Error "label multiply defined".
Proof.
  exact (genLabel_twice 3 (new_CodeBlock 0 false false) _ eq_refl).
Defined.

(** On a block that already holds a byte and the placed label 1,
    [genLabel] of the label 3 gives the stream byte, label 1, label 3. *)
Lemma genLabel_keeps_labels_once_witness :
  genLabel 3 labelled_block
    = Ok (extend (LBL 3) (set_labels labelled_block {[1%nat := 0; 3%nat := 0]})) /\
  NoDup (labels_of [Num 144; LBL 1; LBL 3]) /\
  stream_labels_placed
    (extend (LBL 3) (set_labels labelled_block {[1%nat := 0; 3%nat := 0]})) /\
  code (extend (LBL 3) (set_labels labelled_block {[1%nat := 0; 3%nat := 0]}))
    = [Num 144; LBL 1; LBL 3].
Proof.
  assert (NoDup (labels_of (code labelled_block))) as Hnd0
    by (simpl; apply NoDup_singleton).
  assert (stream_labels_placed labelled_block) as Hpl0.
  { intros l Hl. simpl in Hl. apply list_elem_of_singleton in Hl. subst l.
    by eexists. }
  split; [reflexivity|].
  exact (genLabel_keeps_labels_once 3 labelled_block
           (extend (LBL 3) (set_labels labelled_block {[1%nat := 0; 3%nat := 0]}))
           Hnd0 Hpl0 eq_refl).
Defined.

(** [align(16, 0, 0)] at position 5 pads with 11 zero bytes. *)
Lemma align_padding_witness :
  0 <= 11 < 16 /\ (5 + 11 - 0) mod 16 = 0 /\
  align_add_bytes 16 0 0 ∅ 5 = replicate 11 0.
Proof.
  assert (forall z, -16 <= z <= 16 -> safe_integer z) as Hsafe
    by (intros z Hz; unfold safe_integer; lia).
  exact (align_padding 16 0 0 ∅ 5 11 ltac:(lia) (Hsafe 16 ltac:(lia))
           (Hsafe 5 ltac:(lia)) (Hsafe 0 ltac:(lia)) (Hsafe (-5) ltac:(lia)) eq_refl).
Defined.

(** The emitters on the number 0, as [genRequired] calls them: zero
    bytes at the end of the stream, in either byte order. *)
Lemma gen8_zero cb : gen8 0 cb = set_code cb (code cb ++ [Num 0]).
Proof. reflexivity. Qed.

Lemma set_code_set_code cb c1 c2 : set_code (set_code cb c1) c2 = set_code cb c2.
Proof. reflexivity. Qed.

Lemma gen16_zero cb : gen16 0 cb = set_code cb (code cb ++ [Num 0; Num 0]).
Proof.
  unfold gen16, gen16BE, gen16LE. change (num_shift 0 (-8)) with 0.
  destruct (bigEndian cb); rewrite !gen8_zero, set_code_set_code; simpl;
    by rewrite <- app_assoc.
Qed.

Lemma gen32_zero cb :
  gen32 0 cb = set_code cb (code cb ++ [Num 0; Num 0; Num 0; Num 0]).
Proof.
  unfold gen32, gen32BE, gen32LE. change (num_shift 0 (-16)) with 0.
  destruct (bigEndian cb); rewrite !gen16_zero, set_code_set_code; simpl;
    by rewrite <- app_assoc.
Qed.

Lemma gen64_zero cb :
  gen64 0 cb = set_code cb (code cb ++ replicate 8 (Num 0)).
Proof.
  unfold gen64, gen64BE, gen64LE. change (num_shift 0 (-32)) with 0.
  destruct (bigEndian cb); rewrite !gen32_zero, set_code_set_code; simpl;
    by rewrite <- app_assoc.
Qed.

(** [genRequired]: the anchor is a new label, which no label created
    before equals; it joins the stream with position 0, followed by
    [width()/8] zero bytes, and the pair of the anchor and the link
    object joins the required array. Every label created before keeps
    its position, or stays without one. A width other than 8, 16, 32 or
    64 is refused by [genNumber]. *)
Lemma genRequired_reserves o allocated cb :
  (forall l, is_Some (labels cb !! l) -> (l < allocated)%nat) ->
  if bool_decide (lwidth o ∈ [8; 16; 32; 64])
  then exists cb',
         genRequired o allocated cb = Ok (cb', S allocated) /\
         code cb' = code cb ++ LBL allocated
                      :: replicate (Z.to_nat (lwidth o / 8)) (Num 0) /\
         requiredArray cb' = requiredArray cb ++ [(allocated, o)] /\
         labels cb' = <[allocated := 0]> (labels cb) /\
         (forall l, (l < allocated)%nat ->
            l <> allocated /\ labels cb' !! l = labels cb !! l)
  else genRequired o allocated cb = Error "Invalid width".
Proof.
  intros Hcreated. unfold genRequired, new_label, genLabel.
  assert (labels cb !! allocated = None) as Hfresh.
  { destruct (labels cb !! allocated) as [p|] eqn:E; [|done].
    pose proof (Hcreated allocated ltac:(rewrite E; eauto)). lia. }
  set (l := allocated) in *. rewrite Hfresh.
  set (cb1 := extend (LBL l) (set_labels cb (<[l:=0]> (labels cb)))).
  assert (code cb1 = code cb ++ [LBL l]) as Hc1 by reflexivity.
  assert (requiredArray cb1 = requiredArray cb) as Hr1 by reflexivity.
  assert (labels cb1 = <[l:=0]> (labels cb)) as Hl1 by reflexivity.
  clearbody cb1. cbn [mbind result_bind]. unfold genNumber.
  destruct (bool_decide (lwidth o ∈ [8; 16; 32; 64])) eqn:E.
  - apply bool_decide_eq_true in E.
    repeat (apply elem_of_cons in E; destruct E as [->|E]);
      [| | | |by apply elem_of_nil in E]; cbn [Z.eqb Pos.eqb];
      cbn [mbind result_bind]; eexists; (split; [reflexivity|]);
      rewrite ?gen8_zero, ?gen16_zero, ?gen32_zero, ?gen64_zero;
      cbn [code requiredArray labels set_code]; rewrite Hc1, Hr1, Hl1, <- app_assoc;
      (split; [reflexivity|]); (split; [reflexivity|]); (split; [reflexivity|]);
      intros x Hx; (split; [unfold l; lia|]);
      apply lookup_insert_ne; unfold l; lia.
  - apply bool_decide_eq_false in E.
    destruct (lwidth o =? 8) eqn:E8; [apply Z.eqb_eq in E8; set_solver|].
    destruct (lwidth o =? 16) eqn:E16; [apply Z.eqb_eq in E16; set_solver|].
    destruct (lwidth o =? 32) eqn:E32; [apply Z.eqb_eq in E32; set_solver|].
    destruct (lwidth o =? 64) eqn:E64; [apply Z.eqb_eq in E64; set_solver|].
    reflexivity.
Qed.

(** On a block whose jump targets the label 0, created and not placed,
    the anchor is the label 1, and the label 0 stays without a position. *)
Lemma genRequired_reserves_witness :
  exists cb',
    genRequired short_link 1 pending_jump_block = Ok (cb', 2%nat) /\
    code cb' = [DEF 0; LBL 1; Num 0; Num 0; Num 0; Num 0] /\
    labels cb' !! 0%nat = None.
Proof.
  assert (forall l, is_Some (labels pending_jump_block !! l) -> (l < 1)%nat) as Hcreated.
  { intros l [p Hp]. change (labels pending_jump_block) with (∅ : gmap nat Z) in Hp.
    rewrite lookup_empty in Hp. discriminate. }
  destruct (genRequired_reserves short_link 1 pending_jump_block Hcreated)
    as (cb' & H & Hc & _ & _ & Hl).
  exists cb'. split; [exact H|]. split; [exact Hc|].
  exact (proj2 (Hl 0%nat ltac:(lia))).
Defined.

(** ** The linker *)

Lemma writeToMemoryBlock_in_bounds block index value :
  0 <= index < Z.of_nat (length block) ->
  writeToMemoryBlock block index value = Ok (<[Z.to_nat index := value]> block).
Proof.
  intros H. unfold writeToMemoryBlock.
  destruct (0 <=? index) eqn:E1; [|apply Z.leb_gt in E1; lia].
  destruct (index <? Z.of_nat (length block)) eqn:E2; [|apply Z.ltb_ge in E2; lia].
  reflexivity.
Qed.

Lemma link_write_spec bytes : forall block offset i,
  0 <= offset + i ->
  offset + i + Z.of_nat (length bytes) <= Z.of_nat (length block) ->
  link_write block offset i bytes = Ok (patch block (offset + i) bytes).
Proof.
  induction bytes as [|b rest IH]; intros block offset i Hlo Hhi; simpl.
  - unfold patch. simpl. rewrite Nat.add_0_r, take_drop. done.
  - simpl in Hhi.
    rewrite writeToMemoryBlock_in_bounds by lia. simpl.
    rewrite IH by (rewrite ?length_insert; lia).
    f_equal. unfold patch.
    replace (Z.to_nat (offset + (i + 1))) with (S (Z.to_nat (offset + i))) by lia.
    set (k := Z.to_nat (offset + i)).
    assert (k < length block)%nat as Hk by lia.
    destruct (lookup_lt_is_Some_2 block k Hk) as [x Hx].
    rewrite (take_S_r _ _ b) by (rewrite list_lookup_insert_eq; done).
    rewrite take_insert_ge by lia.
    rewrite drop_insert_lt by lia.
    rewrite <- app_assoc. simpl.
    replace (k + S (length rest))%nat with (S (k + length rest)) by lia. done.
Qed.

Lemma length_patch block offset bytes :
  0 <= offset -> offset + Z.of_nat (length bytes) <= Z.of_nat (length block) ->
  length (patch block offset bytes) = length block.
Proof.
  intros Hlo Hhi. unfold patch.
  rewrite !length_app, length_take, length_drop. lia.
Qed.

(** The bounds of every site, each checked on the block as the sites
    before it left it (a patch keeps the length). *)
Lemma link_sites_spec sites : forall block,
  Forall (site_in_bounds block) sites ->
  link_sites block sites
    = Ok (foldl (fun b r => patch b (req_offset r) (req_linkValue r)) block sites).
Proof.
  induction sites as [|r rest IH]; intros block Hb; simpl; [done|].
  inversion Hb as [|? ? [Hlo Hhi] Hrest]; subst.
  pose proof (link_write_spec (req_linkValue r) block (req_offset r) 0) as Hw.
  rewrite Z.add_0_r in Hw. rewrite Hw by lia. simpl.
  apply IH. eapply Forall_impl; [exact Hrest|].
  intros s [Hs1 Hs2]. split; [done|].
  rewrite length_patch by lia. done.
Qed.

(** C9, as the code has it. [asm.link] does not compare the length of
    what [linkValue()] returns with [width()/8]: for each required object,
    in order, it writes every byte returned at [offset, offset + length),
    whatever the declared width, and so at [offset, offset + width/8)
    when the two agree; the writes succeed when they stay inside the
    block. *)
Theorem link_writes_link_values mcb :
  Forall (site_in_bounds (mc_bytes mcb)) (mc_requiredArray mcb) ->
  link mcb
    = Ok (mkMcblock
            (foldl (fun b r => patch b (req_offset r) (req_linkValue r))
               (mc_bytes mcb) (mc_requiredArray mcb))
            (mc_requiredArray mcb)).
Proof.
  intros Hb. unfold link. rewrite (link_sites_spec _ _ Hb). reflexivity.
Qed.

(** C9 as stated fails: a link object that declares 32 bits and
    returns 2 bytes is linked without an error. *)
Lemma link_accepts_length_mismatch :
  Z.of_nat (length (req_linkValue (mkRequired 4 4100 short_link)))
    <> lwidth short_link / 8 /\
  link short_site_block
    = Ok (mkMcblock [0; 0; 0; 0; 170; 187; 0; 0] (mc_requiredArray short_site_block)).
Proof. split; [vm_compute; discriminate|reflexivity]. Qed.

Lemma link_writes_link_values_witness :
  link short_site_block
    = Ok (mkMcblock [0; 0; 0; 0; 170; 187; 0; 0] (mc_requiredArray short_site_block)).
Proof.
  refine (link_writes_link_values short_site_block _).
  repeat constructor; vm_compute; discriminate.
Defined.

(** ** [origin] *)

(** C6, the code at the failing input. [origin] leaves the block as it
    is: no deferred object joins the stream, and assembling pads nothing.
    On a block holding one byte, [origin(4, 0)] followed by [assemble]
    gives one byte, and so does [origin(0, 0)], whose address is behind
    the position, without an error; [align], next to it, does append its
    deferred object. *)
Lemma origin_appends_nothing address fill cb :
  origin address fill cb = cb /\
  assemble 1 (origin 4 0 (gen8 1 (new_CodeBlock 0 false false)))
    = Ok (1, gen8 1 (new_CodeBlock 0 false false)) /\
  assemble 1 (origin 0 0 (gen8 1 (new_CodeBlock 0 false false)))
    = Ok (1, gen8 1 (new_CodeBlock 0 false false)) /\
  exists cb', align 4 0 0 (gen8 1 (new_CodeBlock 0 false false)) = Ok cb' /\
              code cb' = [Num 1; DEF 0].
Proof.
  split; [reflexivity|]. split; [reflexivity|]. split; [reflexivity|].
  eexists. split; reflexivity.
Qed.

(** ** JavaScript integer operators on small numbers *)

Lemma js_toInt32_small x : - 2 ^ 31 <= x < 2 ^ 31 -> js_toInt32 x = x.
Proof.
  intros H. unfold js_toInt32. rewrite Z.mod_small by lia. lia.
Qed.

Lemma js_and_65535 x : 0 <= x < 2 ^ 31 -> js_and x 65535 = x mod 65536.
Proof.
  intros H. unfold js_and. rewrite !js_toInt32_small by lia.
  change 65535 with (Z.ones 16). rewrite Z.land_ones by lia. reflexivity.
Qed.

Lemma js_shr_16 x : 0 <= x < 2 ^ 31 -> js_shr x 16 = x / 65536.
Proof.
  intros H. unfold js_shr. rewrite js_toInt32_small by lia.
  change (16 mod 32) with 16. rewrite Z.shiftr_div_pow2 by lia. reflexivity.
Qed.

(** ** Limbs *)

Lemma limbs_value_bounds limbs :
  Forall limb limbs -> 0 <= limbs_value limbs < 65536 ^ Z.of_nat (length limbs).
Proof.
  induction 1 as [|x rest Hx Hrest IH]; simpl limbs_value.
  - simpl. lia.
  - rewrite length_cons, Nat2Z.inj_succ, Z.pow_succ_r by lia.
    unfold limb in Hx. nia.
Qed.

Lemma limbs_value_zero limbs :
  Forall limb limbs -> limbs_value limbs = 0 ->
  limbs = replicate (length limbs) 0.
Proof.
  induction 1 as [|x rest Hx Hrest IH]; simpl; intros Hv; [done|].
  pose proof (limbs_value_bounds rest Hrest). unfold limb in Hx.
  assert (x = 0) by nia. assert (limbs_value rest = 0) by nia.
  subst x. rewrite <- IH by done. done.
Qed.

(** ** [addOffset] *)

(** The loop adds [opnd + carry] to the number that the remaining limbs
    stand for, and fails exactly when the sum does not fit in them. *)
Lemma addOffset_loop_spec rest : forall opnd carry,
  Forall limb rest -> 0 <= opnd < 2 ^ 31 -> 0 <= carry <= 1 ->
  if limbs_value rest + opnd + carry <? 65536 ^ Z.of_nat (length rest)
  then exists out,
         addOffset_loop rest opnd carry = Ok out /\
         Forall limb out /\ length out = length rest /\
         limbs_value out = limbs_value rest + opnd + carry
  else addOffset_loop rest opnd carry = Error "Address overflow".
Proof.
  induction rest as [|x rest IH]; intros opnd carry Hl Ho Hc.
  - cbn [length limbs_value addOffset_loop].
    change (65536 ^ Z.of_nat 0) with 1.
    destruct (0 <? opnd) eqn:E1; simpl.
    + apply Z.ltb_lt in E1.
      destruct (0 + opnd + carry <? 1) eqn:E; [apply Z.ltb_lt in E; lia|done].
    + apply Z.ltb_ge in E1. assert (opnd = 0) by lia. subst opnd.
      destruct (carry =? 0) eqn:E2; simpl.
      * apply Z.eqb_eq in E2. subst carry. simpl. eauto.
      * apply Z.eqb_neq in E2.
        destruct (0 + 0 + carry <? 1) eqn:E; [apply Z.ltb_lt in E; lia|done].
  - inversion Hl as [|? ? Hx Hrest]; subst.
    pose proof (limbs_value_bounds rest Hrest) as Hb.
    unfold limb in Hx.
    cbn [addOffset_loop limbs_value].
    rewrite length_cons, Nat2Z.inj_succ, Z.pow_succ_r by lia.
    destruct ((0 <? opnd) || negb (carry =? 0)) eqn:Econd.
    + assert (0 <= opnd mod 65536 < 65536) as Hm by (apply Z.mod_pos_bound; lia).
      assert (0 <= opnd / 65536 < 32768) as Hq.
      { split; [apply Z.div_pos; lia|]. apply Z.div_lt_upper_bound; lia. }
      pose proof (Z.div_mod opnd 65536 ltac:(lia)) as Hdm.
      rewrite (js_and_65535 opnd) by lia.
      set (res := x + opnd mod 65536 + carry).
      assert (0 <= res < 131072) as Hres by (unfold res; lia).
      rewrite (js_shr_16 opnd) by lia.
      rewrite (js_shr_16 res), (js_and_65535 res) by lia.
      assert (0 <= res mod 65536 < 65536) as Hrm by (apply Z.mod_pos_bound; lia).
      assert (0 <= res / 65536 <= 1) as Hrq.
      { split; [apply Z.div_pos; lia|].
        assert (res / 65536 < 2) by (apply Z.div_lt_upper_bound; lia). lia. }
      pose proof (Z.div_mod res 65536 ltac:(lia)) as Hrdm.
      specialize (IH (opnd / 65536) (res / 65536) Hrest ltac:(lia) Hrq).
      assert (x + 65536 * limbs_value rest + opnd + carry
              = res mod 65536
                + 65536 * (limbs_value rest + opnd / 65536 + res / 65536)) as Heq
        by (unfold res in *; lia).
      rewrite Heq. clear Heq Hdm Hrdm Hres Hq Hm Hrq Hb.
      set (T := limbs_value rest + opnd / 65536 + res / 65536) in *.
      set (K := 65536 ^ Z.of_nat (length rest)) in *.
      set (m := res mod 65536) in *.
      clearbody T K m res.
      destruct (T <? K) eqn:E.
      * apply Z.ltb_lt in E. destruct IH as (out & -> & Hout & Hlen & Hval).
        destruct (m + 65536 * T <? 65536 * K) eqn:E';
          [|apply Z.ltb_ge in E'; lia].
        simpl. eexists. split; [reflexivity|].
        split; [constructor; [unfold limb; lia|done]|].
        split; [simpl; lia|]. simpl. lia.
      * apply Z.ltb_ge in E. rewrite IH.
        destruct (m + 65536 * T <? 65536 * K) eqn:E';
          [apply Z.ltb_lt in E'; lia|]. reflexivity.
    + apply orb_false_iff in Econd. destruct Econd as [E1 E2].
      apply Z.ltb_ge in E1. apply negb_false_iff, Z.eqb_eq in E2.
      assert (opnd = 0) by lia. subst opnd carry.
      destruct (_ <? _) eqn:E'; [|apply Z.ltb_ge in E'; nia].
      exists (x :: rest). repeat split; auto. simpl. lia.
Qed.

Lemma width_bits a :
  well_formed_address a ->
  65536 ^ Z.of_nat (length (addrElemArray a)) = 2 ^ width a.
Proof.
  intros [_ [H|H]]; unfold width; rewrite H; reflexivity.
Qed.

Lemma addr_value_bounds a :
  well_formed_address a -> 0 <= addr_value a < 2 ^ width a.
Proof.
  intros Hwf. rewrite <- (width_bits a Hwf).
  apply limbs_value_bounds. apply Hwf.
Qed.

(** [addOffset] on a non-negative offset below 2^31: a failed assertion
    exactly when the sum leaves the width, the exact sum otherwise. *)
Lemma addOffset_spec fuel a n :
  well_formed_address a -> 0 <= n < 2 ^ 31 ->
  if addr_value a + n <? 2 ^ width a
  then exists a',
         addOffset fuel a n = Ok a' /\ well_formed_address a' /\
         width a' = width a /\ addr_bigEndian a' = addr_bigEndian a /\
         addr_value a' = addr_value a + n
  else addOffset fuel a n = Error "Address overflow".
Proof.
  intros Hwf Hn. unfold addOffset, addOffset_nonneg.
  destruct (n <? 0) eqn:En; [apply Z.ltb_lt in En; lia|].
  pose proof (addOffset_loop_spec (addrElemArray a) n 0 (proj1 Hwf) Hn ltac:(lia))
    as Hspec.
  rewrite Z.add_0_r, (width_bits a Hwf) in Hspec.
  destruct (addr_value a + n <? 2 ^ width a) eqn:E; fold (addr_value a) in Hspec;
    rewrite E in Hspec.
  - destruct Hspec as (out & -> & Hout & Hlen & Hval). simpl.
    eexists. split; [reflexivity|]. unfold well_formed_address, width, addr_value.
    simpl. rewrite Hlen. repeat split; auto. apply Hwf.
  - rewrite Hspec. reflexivity.
Qed.

(** ** [addAddress] and [complement] *)

Lemma addAddress_loop_spec xs : forall ys carry,
  Forall limb xs -> Forall limb ys -> length xs = length ys ->
  0 <= carry <= 1 ->
  Forall limb (addAddress_loop xs ys carry) /\
  length (addAddress_loop xs ys carry) = length xs /\
  limbs_value (addAddress_loop xs ys carry)
    = (limbs_value xs + limbs_value ys + carry) mod 65536 ^ Z.of_nat (length xs).
Proof.
  induction xs as [|x xs IH]; intros ys carry Hxs Hys Hlen Hc.
  - destruct ys; [|discriminate]. simpl.
    split; [constructor|]. split; [done|]. rewrite Z.mod_1_r. done.
  - destruct ys as [|y ys]; [discriminate|].
    inversion Hxs as [|? ? Hx Hxs']; inversion Hys as [|? ? Hy Hys']; subst.
    unfold limb in Hx, Hy. simpl in Hlen.
    cbn [addAddress_loop limbs_value].
    set (res := x + y + carry).
    assert (0 <= res < 131072) as Hres by (unfold res; lia).
    rewrite (js_shr_16 res), (js_and_65535 res) by lia.
    assert (0 <= res mod 65536 < 65536) as Hrm by (apply Z.mod_pos_bound; lia).
    assert (0 <= res / 65536 <= 1) as Hrq.
    { split; [apply Z.div_pos; lia|].
      assert (res / 65536 < 2) by (apply Z.div_lt_upper_bound; lia). lia. }
    pose proof (Z.div_mod res 65536 ltac:(lia)) as Hrdm.
    destruct (IH ys (res / 65536) Hxs' Hys' ltac:(lia) Hrq) as (Hout & Hl & Hv).
    split; [constructor; [unfold limb; lia|done]|].
    split; [simpl; lia|].
    rewrite Hv, length_cons, Nat2Z.inj_succ, Z.pow_succ_r by lia.
    set (K := 65536 ^ Z.of_nat (length xs)) in *.
    assert (0 < K) as HK by (apply Z.pow_pos_nonneg; lia).
    set (T := limbs_value xs + limbs_value ys + res / 65536) in *.
    pose proof (Z.div_mod T K ltac:(lia)) as HT.
    pose proof (Z.mod_pos_bound T K HK) as HTm.
    apply Z.mod_unique_pos with (q := T / K).
    + clearbody K T. nia.
    + unfold T in HT |- *. clearbody K. nia.
Qed.

Lemma limbs_value_complement limbs :
  limbs_value (map (fun x => 65535 - x) limbs)
    = 65536 ^ Z.of_nat (length limbs) - 1 - limbs_value limbs.
Proof.
  induction limbs as [|x rest IH]; [done|].
  cbn [map limbs_value]. rewrite IH, length_cons, Nat2Z.inj_succ, Z.pow_succ_r by lia.
  lia.
Qed.

Lemma Forall_limb_complement limbs :
  Forall limb limbs -> Forall limb (map (fun x => 65535 - x) limbs).
Proof.
  intros H. apply Forall_map. eapply Forall_impl; [exact H|].
  intros x Hx. unfold limb in *. simpl. lia.
Qed.

(** [complement] is the negation modulo 2^width, but for zero, where the
    added 1 carries out of the last limb. *)
Lemma complement_spec a :
  well_formed_address a ->
  if addr_value a =? 0
  then complement a = Error "Address overflow"
  else exists c,
         complement a = Ok c /\ well_formed_address c /\
         length (addrElemArray c) = length (addrElemArray a) /\
         addr_value c = 2 ^ width a - addr_value a.
Proof.
  intros Hwf. pose proof (addr_value_bounds a Hwf) as Hb.
  unfold complement, addOffset_nonneg. simpl.
  pose proof (addOffset_loop_spec (map (fun x => 65535 - x) (addrElemArray a)) 1 0
                (Forall_limb_complement _ (proj1 Hwf)) ltac:(lia) ltac:(lia)) as Hs.
  rewrite limbs_value_complement, length_map, (width_bits a Hwf) in Hs.
  fold (addr_value a) in Hs.
  destruct (addr_value a =? 0) eqn:E.
  - apply Z.eqb_eq in E.
    destruct (_ <? _) eqn:E' in Hs; [apply Z.ltb_lt in E'; lia|].
    rewrite Hs. reflexivity.
  - apply Z.eqb_neq in E.
    destruct (_ <? _) eqn:E' in Hs; [|apply Z.ltb_ge in E'; lia].
    destruct Hs as (out & -> & Hout & Hlen & Hval). simpl.
    eexists. split; [reflexivity|]. split; [|split].
    + split; simpl; [done|]. rewrite Hlen. apply Hwf.
    + simpl. done.
    + unfold addr_value in *. simpl. lia.
Qed.

(** C8, as the code has it. [complement()] already ends with
    [addOffset(1)]: for every address but zero it is the two's-complement
    negation, and adding it to the address with [addAddress] gives the
    zero address of the same width. *)
Theorem complement_is_negation a :
  well_formed_address a -> addr_value a <> 0 ->
  exists c z,
    complement a = Ok c /\
    addr_value c = 2 ^ width a - addr_value a /\
    addAddress a c = Ok z /\
    addr_value z = 0 /\
    addrElemArray z = replicate (length (addrElemArray a)) 0.
Proof.
  intros Hwf Hnz. pose proof (complement_spec a Hwf) as Hc.
  destruct (addr_value a =? 0) eqn:E; [apply Z.eqb_eq in E; done|].
  destruct Hc as (c & Hc & Hwfc & Hlen & Hval).
  destruct (addAddress_loop_spec (addrElemArray a) (addrElemArray c) 0
              (proj1 Hwf) (proj1 Hwfc) (eq_sym Hlen) ltac:(lia))
    as (Hout & Hl & Hv).
  exists c, (mkAddress (addAddress_loop (addrElemArray a) (addrElemArray c) 0)
               (addr_bigEndian a)).
  assert (limbs_value (addAddress_loop (addrElemArray a) (addrElemArray c) 0) = 0)
    as Hzero.
  { rewrite Hv. fold (addr_value a) (addr_value c).
    rewrite Hval, (width_bits a Hwf).
    replace (addr_value a + (2 ^ width a - addr_value a) + 0) with (2 ^ width a) by lia.
    apply Z.mod_same. pose proof (addr_value_bounds a Hwf). lia. }
  split; [done|]. split; [done|]. split.
  - unfold addAddress, width. rewrite Hlen, Z.eqb_refl. reflexivity.
  - split; [exact Hzero|]. simpl. rewrite <- Hl.
    apply limbs_value_zero; done.
Qed.

(** C8 as stated fails: on the address 5, [complement()] then
    [addOffset(1)] then [addAddress] gives the address 1; on the address
    0, [complement()] itself stops on the failed assertion. *)
Lemma complement_add_offset_not_negation :
  (complement addr_five ≫= fun c => addOffset 0 c 1 ≫= addAddress addr_five)
    = Ok (mkAddress [1; 0] false) /\
  addr_value (mkAddress [1; 0] false) = 1 /\
  complement addr_zero = Error "Address overflow".
Proof. repeat split; reflexivity. Qed.

Lemma addr_five_well_formed : well_formed_address addr_five.
Proof. split; [repeat constructor; unfold limb; lia|left; reflexivity]. Qed.

Lemma complement_is_negation_witness :
  exists c z,
    complement addr_five = Ok c /\
    addr_value c = 2 ^ width addr_five - addr_value addr_five /\
    addAddress addr_five c = Ok z /\
    addr_value z = 0 /\
    addrElemArray z = replicate (length (addrElemArray addr_five)) 0.
Proof.
  refine (complement_is_negation addr_five addr_five_well_formed _).
  vm_compute. discriminate.
Defined.

(** ** [subOffset] *)

(** Once the index is past the last limb with a borrow pending, every
    iteration leaves the borrow pending: the loop never ends. *)
Lemma subOffset_loop_past_end fuel : forall this newAddr opnd i,
  (length this <= i)%nat ->
  subOffset_loop fuel this newAddr opnd (-1) i = OutOfFuel.
Proof.
  induction fuel as [|fuel IH]; intros this newAddr opnd i Hi; simpl.
  - by rewrite orb_true_r.
  - rewrite orb_true_r. rewrite (lookup_ge_None_2 this i Hi).
    apply IH. lia.
Qed.

(** C7, the code at the failing input. [subOffset(1)] on the 32-bit
    address 0 never returns, whatever the number of iterations allowed;
    the assertion "Address underflow" that follows the loop is not
    reached. The overflow side does stop: [addOffset(4)] on 0xFFFFFFFC is
    the failed assertion "Address overflow". *)
Lemma subOffset_underflow_never_returns :
  (forall fuel, subOffset fuel addr_zero 1 = OutOfFuel) /\
  (forall fuel, addOffset fuel addr_top 4 = Error "Address overflow").
Proof.
  split; [|reflexivity].
  intros fuel. unfold subOffset, subOffset_nonneg. simpl.
  destruct fuel as [|[|fuel]]; try reflexivity.
  simpl. rewrite subOffset_loop_past_end by (simpl; lia). reflexivity.
Qed.

(** The loop of [subOffset] from index [i] on, [k] limbs being left:
    when the difference is not negative it ends within [k] iterations
    with the exact difference in the limbs from [i] on, the limbs before
    [i] untouched; when the difference is negative it never ends. *)
Lemma subOffset_loop_spec k : forall fuel this newAddr opnd carry i,
  Forall limb this -> length newAddr = length this ->
  drop i newAddr = drop i this ->
  0 <= opnd < 2 ^ 31 -> -1 <= carry <= 0 ->
  length this = (i + k)%nat ->
  if 0 <=? limbs_value (drop i this) - opnd + carry
  then (k < fuel)%nat ->
       exists out,
         subOffset_loop fuel this newAddr opnd carry i = Ok out /\
         take i out = take i newAddr /\ length out = length this /\
         Forall limb (drop i out) /\
         limbs_value (drop i out) = limbs_value (drop i this) - opnd + carry
  else subOffset_loop fuel this newAddr opnd carry i = OutOfFuel.
Proof.
  induction k as [|k IH];
    intros fuel this newAddr opnd carry i Hl Hlen Hdrop Ho Hc Hk.
  - assert (drop i this = []) as Hnil by (apply drop_ge; lia).
    rewrite Hnil. cbn [limbs_value].
    destruct (0 <=? 0 - opnd + carry) eqn:E.
    + apply Z.leb_le in E. assert (opnd = 0) by lia. assert (carry = 0) by lia.
      subst opnd carry. intros _. exists newAddr.
      split; [destruct fuel; reflexivity|].
      rewrite Hdrop, Hnil. repeat split; auto.
    + apply Z.leb_gt in E.
      assert ((0 <? opnd) || negb (carry =? 0) = true) as Hcond.
      { destruct (0 <? opnd) eqn:E1; [done|]. apply Z.ltb_ge in E1.
        destruct (carry =? 0) eqn:E2; [|done]. apply Z.eqb_eq in E2. lia. }
      destruct fuel as [|fuel]; simpl; rewrite Hcond; [done|].
      rewrite (lookup_ge_None_2 this i) by lia.
      apply subOffset_loop_past_end. lia.
  - destruct (lookup_lt_is_Some_2 this i ltac:(lia)) as [x Hx].
    rewrite (drop_S _ _ _ Hx). cbn [limbs_value].
    assert (Forall limb (drop (S i) this)) as Hrest by (by apply Forall_drop).
    pose proof (limbs_value_bounds _ Hrest) as Hb.
    assert (limb x) as Hlx by (exact (Forall_lookup_1 limb this i x Hl Hx)).
    unfold limb in Hlx.
    set (V := limbs_value (drop (S i) this)) in *.
    destruct ((0 <? opnd) || negb (carry =? 0)) eqn:Hcond.
    + assert (0 <= opnd mod 65536 < 65536) as Hm by (apply Z.mod_pos_bound; lia).
      assert (0 <= opnd / 65536 < 32768) as Hq.
      { split; [apply Z.div_pos; lia|]. apply Z.div_lt_upper_bound; lia. }
      pose proof (Z.div_mod opnd 65536 ltac:(lia)) as Hdm.
      set (res := x - opnd mod 65536 + carry).
      assert (-65536 <= res < 65536) as Hres by (unfold res; lia).
      set (m := if 0 <=? res then res else res + 65536).
      set (c := if 0 <=? res then 0 else -1).
      assert (0 <= m < 65536 /\ -1 <= c <= 0 /\ res = m + 65536 * c) as (Hmm & Hcc & Hmc).
      { unfold m, c. destruct (0 <=? res) eqn:Er;
          [apply Z.leb_le in Er|apply Z.leb_gt in Er]; lia. }
      destruct fuel as [|fuel].
      { destruct (0 <=? x + 65536 * V - opnd + carry); [intros; lia|].
        simpl. by rewrite Hcond. }
      assert (subOffset_loop (S fuel) this newAddr opnd carry i
              = subOffset_loop fuel this (<[i := m]> newAddr) (opnd / 65536) c (S i))
        as Hstep.
      { simpl. rewrite Hcond, Hx, (js_and_65535 opnd), (js_shr_16 opnd) by lia.
        fold res. unfold m, c. destruct (0 <=? res); reflexivity. }
      specialize (IH fuel this (<[i := m]> newAddr) (opnd / 65536) c (S i) Hl).
      rewrite length_insert in IH. specialize (IH Hlen).
      rewrite drop_insert_lt in IH by lia.
      assert (drop (S i) newAddr = drop (S i) this) as Hdrop'.
      { replace (S i) with (i + 1)%nat by lia.
        rewrite <- (drop_drop newAddr 1 i), <- (drop_drop this 1 i), Hdrop. done. }
      specialize (IH Hdrop' ltac:(lia) Hcc ltac:(lia)). fold V in IH.
      assert (x + 65536 * V - opnd + carry = m + 65536 * (V - opnd / 65536 + c))
        as Heq by (unfold res in Hmc; lia).
      rewrite Heq. clear Heq Hdm Hm.
      destruct (0 <=? V - opnd / 65536 + c) eqn:E.
      * apply Z.leb_le in E.
        destruct (0 <=? m + 65536 * (V - opnd / 65536 + c)) eqn:E';
          [|apply Z.leb_gt in E'; lia].
        intros Hfuel.
        destruct (IH ltac:(lia)) as (out & Hout & Htake & Hlo & Hfo & Hvo).
        exists out. split; [by rewrite Hstep|].
        assert (out !! i = Some m) as Hoi.
        { rewrite <- (lookup_take_lt out (S i) i) by lia. rewrite Htake.
          rewrite lookup_take_lt by lia. apply list_lookup_insert_eq. lia. }
        split.
        { assert (take i out = take i (take (S i) out)) as ->
            by (rewrite take_take; f_equal; lia).
          rewrite Htake, take_take.
          replace (i `min` S i)%nat with i by lia.
          apply take_insert_ge. lia. }
        split; [done|]. rewrite (drop_S _ _ _ Hoi). cbn [limbs_value].
        split; [constructor; [unfold limb; lia|done]|]. lia.
      * apply Z.leb_gt in E.
        destruct (0 <=? m + 65536 * (V - opnd / 65536 + c)) eqn:E';
          [apply Z.leb_le in E'; lia|].
        by rewrite Hstep.
    + apply orb_false_iff in Hcond. destruct Hcond as [E1 E2].
      apply Z.ltb_ge in E1. apply negb_false_iff, Z.eqb_eq in E2.
      assert (opnd = 0) by lia. subst opnd carry.
      destruct (0 <=? x + 65536 * V - 0 + 0) eqn:E; [|apply Z.leb_gt in E; lia].
      intros _. exists newAddr. split; [destruct fuel; reflexivity|].
      rewrite Hdrop, (drop_S _ _ _ Hx). cbn [limbs_value]. fold V.
      split; [done|]. split; [done|].
      split; [rewrite <- (drop_S _ _ _ Hx); by apply Forall_drop|lia].
Qed.

(** [subOffset] on a non-negative offset below 2^31: the exact
    difference when it is not negative, within one iteration a limb; no
    return at all when it is negative. *)
Lemma subOffset_spec a n :
  well_formed_address a -> 0 <= n < 2 ^ 31 ->
  if n <=? addr_value a
  then forall fuel, (length (addrElemArray a) < fuel)%nat ->
       exists a',
         subOffset fuel a n = Ok a' /\ well_formed_address a' /\
         width a' = width a /\ addr_bigEndian a' = addr_bigEndian a /\
         addr_value a' = addr_value a - n
  else forall fuel, subOffset fuel a n = OutOfFuel.
Proof.
  intros Hwf Hn. unfold subOffset, subOffset_nonneg.
  destruct (n <? 0) eqn:En; [apply Z.ltb_lt in En; lia|].
  assert (forall fuel,
    if 0 <=? addr_value a - n
    then (length (addrElemArray a) < fuel)%nat ->
         exists out,
           subOffset_loop fuel (addrElemArray a) (addrElemArray a) n 0 0 = Ok out /\
           length out = length (addrElemArray a) /\ Forall limb out /\
           limbs_value out = addr_value a - n
    else subOffset_loop fuel (addrElemArray a) (addrElemArray a) n 0 0 = OutOfFuel)
    as Hspec.
  { intros fuel.
    pose proof (subOffset_loop_spec (length (addrElemArray a)) fuel (addrElemArray a)
      (addrElemArray a) n 0 0%nat (proj1 Hwf) eq_refl eq_refl Hn ltac:(lia) eq_refl)
      as Hs.
    rewrite drop_0, Z.add_0_r in Hs. fold (addr_value a) in Hs.
    destruct (0 <=? addr_value a - n); [|done].
    intros Hfuel. destruct (Hs Hfuel) as (out & ? & _ & ? & Hf & Hv).
    rewrite drop_0 in Hf, Hv. eauto. }
  destruct (n <=? addr_value a) eqn:E.
  - apply Z.leb_le in E. intros fuel Hfuel. specialize (Hspec fuel).
    destruct (0 <=? addr_value a - n) eqn:E'; [|apply Z.leb_gt in E'; lia].
    destruct (Hspec Hfuel) as (out & -> & Hlen & Hout & Hval). simpl.
    eexists. split; [reflexivity|].
    unfold well_formed_address, width, addr_value. simpl. rewrite Hlen.
    repeat split; auto. apply Hwf.
  - apply Z.leb_gt in E. intros fuel. specialize (Hspec fuel).
    destruct (0 <=? addr_value a - n) eqn:E'; [apply Z.leb_le in E'; lia|].
    rewrite Hspec. reflexivity.
Qed.

Lemma limbs_value_inj xs : forall ys,
  Forall limb xs -> Forall limb ys -> length xs = length ys ->
  limbs_value xs = limbs_value ys -> xs = ys.
Proof.
  induction xs as [|x xs IH]; intros ys Hxs Hys Hlen Hv.
  - destruct ys; [done|discriminate].
  - destruct ys as [|y ys]; [discriminate|].
    inversion Hxs as [|? ? Hx Hxs']; inversion Hys as [|? ? Hy Hys']; subst.
    unfold limb in Hx, Hy. simpl in Hv, Hlen.
    assert (x = y /\ limbs_value xs = limbs_value ys) as [-> Hv'] by lia.
    f_equal. apply IH; auto.
Qed.

(** [addr.addOffset(n).subOffset(n)] is [addr], for an offset in range. *)
Lemma addOffset_subOffset a n :
  well_formed_address a -> 0 <= n < 2 ^ 31 -> addr_value a + n < 2 ^ width a ->
  exists a',
    addOffset 0 a n = Ok a' /\
    subOffset (S (length (addrElemArray a'))) a' n = Ok a.
Proof.
  intros Hwf Hn Hfit.
  pose proof (addOffset_spec 0 a n Hwf Hn) as Hadd.
  destruct (addr_value a + n <? 2 ^ width a) eqn:E; [|apply Z.ltb_ge in E; lia].
  destruct Hadd as (a' & Hadd & Hwf' & Hw & Hbe & Hv).
  exists a'. split; [done|].
  pose proof (subOffset_spec a' n Hwf' Hn) as Hsub.
  pose proof (addr_value_bounds a Hwf).
  destruct (n <=? addr_value a') eqn:E'; [|apply Z.leb_gt in E'; lia].
  destruct (Hsub _ (Nat.lt_succ_diag_r _))
    as (a'' & -> & Hwf'' & Hw'' & Hbe'' & Hv'').
  f_equal.
  assert (length (addrElemArray a'') = length (addrElemArray a)) as Hlen.
  { rewrite Hw in Hw''. unfold width in Hw''.
    destruct Hwf'' as [_ [H1|H1]], Hwf as [_ [H2|H2]]; rewrite H1, H2 in *;
      simpl in Hw''; congruence. }
  destruct a as [la ba], a'' as [la'' ba'']. simpl in *.
  rewrite Hbe'', Hbe. f_equal.
  apply limbs_value_inj; auto; [apply Hwf''|apply Hwf|].
  unfold addr_value in *. simpl in *. lia.
Qed.

(** ** [getBytes] and the constructor *)

Lemma js_and_255 x : 0 <= x < 2 ^ 31 -> js_and x 255 = x mod 256.
Proof.
  intros H. unfold js_and. rewrite !js_toInt32_small by lia.
  change 255 with (Z.ones 8). rewrite Z.land_ones by lia. reflexivity.
Qed.

Lemma js_shr_8 x : 0 <= x < 2 ^ 31 -> js_shr x 8 = x / 256.
Proof.
  intros H. unfold js_shr. rewrite js_toInt32_small by lia.
  change (8 mod 32) with 8. rewrite Z.shiftr_div_pow2 by lia. reflexivity.
Qed.

Lemma js_shl_8 x : 0 <= x < 256 -> js_shl x 8 = x * 256.
Proof.
  intros H. unfold js_shl. rewrite (js_toInt32_small x) by lia.
  change (8 mod 32) with 8. rewrite Z.shiftl_mul_pow2 by lia.
  rewrite js_toInt32_small by lia. reflexivity.
Qed.

Lemma limbs_of_bytes_getBytes limbs :
  Forall limb limbs ->
  limbs_of_bytes (flat_map (fun x => [js_and x 255; js_and (js_shr x 8) 255]) limbs)
    = limbs.
Proof.
  induction 1 as [|x rest Hx Hrest IH]; [done|].
  unfold limb in Hx. cbn [flat_map app limbs_of_bytes]. rewrite IH. f_equal.
  assert (0 <= x / 256 < 256) as Hq.
  { split; [apply Z.div_pos; lia|]. apply Z.div_lt_upper_bound; lia. }
  rewrite (js_shr_8 x), (js_and_255 x), (js_and_255 (x / 256)) by lia.
  rewrite (Z.mod_small (x / 256)) by lia. rewrite js_shl_8 by lia.
  pose proof (Z.div_mod x 256 ltac:(lia)). lia.
Qed.

(** The bytes of an address, read back with the same endianness, make
    the same limbs. *)
Lemma getBytes_new_address a be :
  well_formed_address a ->
  new_address (getBytes a be) be = Ok (mkAddress (addrElemArray a) be).
Proof.
  intros [Hl Hlen]. unfold new_address, getBytes.
  set (bytes := flat_map (fun x => [js_and x 255; js_and (js_shr x 8) 255])
                  (addrElemArray a)).
  assert (length bytes = (2 * length (addrElemArray a))%nat) as Hb.
  { unfold bytes. clear. induction (addrElemArray a) as [|x r IH]; [done|].
    cbn [flat_map]. rewrite length_app, IH. simpl. lia. }
  rewrite bool_decide_eq_true_2.
  - f_equal. f_equal. destruct be.
    + rewrite reverse_involutive. by apply limbs_of_bytes_getBytes.
    + by apply limbs_of_bytes_getBytes.
  - destruct be; rewrite ?length_reverse, Hb; lia.
Qed.

(** [addOffset] on a non-negative offset below 2^31 fails with "Address
    overflow" exactly when the sum leaves the width, and returns the
    exact sum otherwise. *)
Lemma addOffset_exact fuel a n :
  well_formed_address a -> 0 <= n < 2 ^ 31 ->
  if addr_value a + n <? 2 ^ width a
  then exists a',
         addOffset fuel a n = Ok a' /\ well_formed_address a' /\
         width a' = width a /\ addr_bigEndian a' = addr_bigEndian a /\
         addr_value a' = addr_value a + n
  else addOffset fuel a n = Error "Address overflow".
Proof. intros Hwf Hn. exact (addOffset_spec fuel a n Hwf Hn). Qed.

(** [subOffset] on a non-negative offset below 2^31 returns the exact
    difference when it is not negative, and never returns when it is. *)
Lemma subOffset_exact a n :
  well_formed_address a -> 0 <= n < 2 ^ 31 ->
  if n <=? addr_value a
  then forall fuel, (length (addrElemArray a) < fuel)%nat ->
       exists a',
         subOffset fuel a n = Ok a' /\ well_formed_address a' /\
         width a' = width a /\ addr_bigEndian a' = addr_bigEndian a /\
         addr_value a' = addr_value a - n
  else forall fuel, subOffset fuel a n = OutOfFuel.
Proof. intros Hwf Hn. exact (subOffset_spec a n Hwf Hn). Qed.

(** [complement] stops on "Address overflow" for the zero address and
    negates every other one. *)
Lemma complement_negates_or_overflows a :
  well_formed_address a ->
  if addr_value a =? 0
  then complement a = Error "Address overflow"
  else exists c,
         complement a = Ok c /\ well_formed_address c /\
         length (addrElemArray c) = length (addrElemArray a) /\
         addr_value c = 2 ^ width a - addr_value a.
Proof. intros Hwf. exact (complement_spec a Hwf). Qed.

(** ** The lemmas at work on the example addresses *)

Lemma addr_top_well_formed : well_formed_address addr_top.
Proof. split; [repeat constructor; unfold limb; lia|left; reflexivity]. Qed.

Lemma addOffset_exact_witness :
  addOffset 0 addr_top 4 = Error "Address overflow".
Proof.
  exact (addOffset_exact 0 addr_top 4 addr_top_well_formed ltac:(lia)).
Defined.

Lemma subOffset_exact_witness :
  exists a',
    subOffset 3 addr_five 5 = Ok a' /\ well_formed_address a' /\
    width a' = width addr_five /\ addr_bigEndian a' = addr_bigEndian addr_five /\
    addr_value a' = addr_value addr_five - 5.
Proof.
  exact (subOffset_exact addr_five 5 addr_five_well_formed ltac:(lia)
           3%nat ltac:(simpl; lia)).
Defined.

Lemma addOffset_subOffset_witness :
  exists a',
    addOffset 0 addr_five 7 = Ok a' /\
    subOffset (S (length (addrElemArray a'))) a' 7 = Ok addr_five.
Proof.
  refine (addOffset_subOffset addr_five 7 addr_five_well_formed _ _).
  - lia.
  - vm_compute. reflexivity.
Defined.

Lemma getBytes_new_address_witness :
  new_address (getBytes addr_top true) true
    = Ok (mkAddress (addrElemArray addr_top) true).
Proof. exact (getBytes_new_address addr_top true addr_top_well_formed). Defined.

Lemma addr_zero_well_formed : well_formed_address addr_zero.
Proof. split; [repeat constructor; unfold limb; lia|left; reflexivity]. Qed.

Lemma complement_negates_or_overflows_witness :
  complement addr_zero = Error "Address overflow".
Proof. exact (complement_negates_or_overflows addr_zero addr_zero_well_formed). Defined.

(** ** The emitters of wider numbers *)

Lemma byte_of_0 n : byte_of n 0 = num_and n 255.
Proof. unfold byte_of, num_shift. simpl. by rewrite Z.shiftl_0_r. Qed.

Lemma byte_of_shift n (j i : nat) :
  byte_of (num_shift n (- (8 * Z.of_nat j))) i = byte_of n (i + j).
Proof.
  unfold byte_of, num_shift. f_equal.
  rewrite <- !Z.shiftr_opp_r, !Z.opp_involutive.
  rewrite Z.shiftr_shiftr by lia. f_equal. lia.
Qed.

Lemma le_bytes_app (k1 k2 : nat) n :
  le_bytes (k1 + k2) n
    = le_bytes k1 n ++ le_bytes k2 (num_shift n (- (8 * Z.of_nat k1))).
Proof.
  unfold le_bytes. rewrite seq_app, map_app. f_equal.
  simpl.
  replace (seq k1 k2) with (Nat.add k1 <$> seq 0 k2)
    by (rewrite fmap_add_seq; f_equal; lia).
  change (map (byte_of n) (Nat.add k1 <$> seq 0 k2))
    with (byte_of n <$> (Nat.add k1 <$> seq 0 k2)).
  rewrite <- list_fmap_compose. apply list_fmap_ext. intros _ i _. simpl.
  by rewrite byte_of_shift, Nat.add_comm.
Qed.

Lemma byte_of_range n i : 0 <= byte_of n i <= 255.
Proof. apply num_and_255_range. Qed.

Lemma byte_of_div n i : byte_of n i = (n / 256 ^ Z.of_nat i) mod 256.
Proof.
  unfold byte_of, num_and, num_shift.
  change 255 with (Z.ones 8). rewrite Z.land_ones by lia.
  rewrite <- Z.shiftr_opp_r, Z.opp_involutive, Z.shiftr_div_pow2 by lia.
  rewrite Z.pow_mul_r by lia. reflexivity.
Qed.

Lemma bytes_value_le_bytes k : forall n,
  bytes_value (le_bytes k n) = n mod 256 ^ Z.of_nat k.
Proof.
  induction k as [|k IH]; intros n.
  - simpl. by rewrite Z.mod_1_r.
  - change (S k) with (1 + k)%nat. rewrite le_bytes_app.
    cbn [le_bytes seq map app bytes_value]. rewrite IH, byte_of_div.
    unfold num_shift. rewrite <- Z.shiftr_opp_r, Z.opp_involutive.
    rewrite Z.shiftr_div_pow2 by lia.
    change (2 ^ (8 * Z.of_nat 1)) with 256. change (256 ^ Z.of_nat 0) with 1.
    rewrite Z.div_1_r.
    replace (Z.of_nat (1 + k)) with (Z.succ (Z.of_nat k)) by lia.
    rewrite Z.pow_succ_r by lia.
    rewrite (Z.rem_mul_r n 256 (256 ^ Z.of_nat k)) by lia. reflexivity.
Qed.

Lemma gen8_bytes n cb :
  gen8 n cb = set_code cb (code cb ++ map Num (in_block_order cb (le_bytes 1 n))).
Proof.
  unfold gen8, extend, in_block_order. cbn [le_bytes seq map].
  rewrite byte_of_0. by destruct (bigEndian cb).
Qed.

(** An emitter of [2k] bytes made of two calls of an emitter of [k]
    bytes, the high half first for big endian. *)
Lemma emit_halves (g : Z -> CodeBlock -> CodeBlock) (k : nat) :
  (forall n cb,
     g n cb = set_code cb (code cb ++ map Num (in_block_order cb (le_bytes k n)))) ->
  forall n cb,
    (if bigEndian cb
     then g n (g (num_shift n (- (8 * Z.of_nat k))) cb)
     else g (num_shift n (- (8 * Z.of_nat k))) (g n cb))
    = set_code cb (code cb ++ map Num (in_block_order cb (le_bytes (k + k) n))).
Proof.
  intros Hg n cb. rewrite le_bytes_app. unfold in_block_order.
  destruct (bigEndian cb) eqn:Ebe; rewrite !Hg; unfold in_block_order;
    cbn [bigEndian code set_code]; rewrite Ebe; unfold set_code;
    cbn [startPos bigEndian useListing code labels deferreds providedArray
         requiredArray];
    rewrite <- app_assoc, ?reverse_app, map_app; reflexivity.
Qed.

Lemma gen16_bytes n cb :
  gen16 n cb = set_code cb (code cb ++ map Num (in_block_order cb (le_bytes 2 n))).
Proof. exact (emit_halves gen8 1 gen8_bytes n cb). Qed.

Lemma gen32_bytes n cb :
  gen32 n cb = set_code cb (code cb ++ map Num (in_block_order cb (le_bytes 4 n))).
Proof. exact (emit_halves gen16 2 gen16_bytes n cb). Qed.

Lemma gen64_bytes n cb :
  gen64 n cb = set_code cb (code cb ++ map Num (in_block_order cb (le_bytes 8 n))).
Proof. exact (emit_halves gen32 4 gen32_bytes n cb). Qed.

(** [genNumber(width, n)] appends the [width/8] low bytes of [n], each in
    0..255, most significant first on a big-endian block and least
    significant first otherwise, and leaves the rest of the block as it
    is; read back least significant first they give [n] modulo 2^width,
    so a negative [n] is emitted in two's complement. A width other than
    8, 16, 32 or 64 is refused. *)
Lemma genNumber_emits width n cb :
  if bool_decide (width ∈ [8; 16; 32; 64])
  then genNumber width n cb
         = Ok (set_code cb
                 (code cb ++ map Num (in_block_order cb
                                        (le_bytes (Z.to_nat (width / 8)) n)))) /\
       Forall (fun b => 0 <= b <= 255) (le_bytes (Z.to_nat (width / 8)) n) /\
       bytes_value (le_bytes (Z.to_nat (width / 8)) n) = n mod 2 ^ width
  else genNumber width n cb = Error "Invalid width".
Proof.
  unfold genNumber.
  destruct (bool_decide (width ∈ [8; 16; 32; 64])) eqn:E.
  - apply bool_decide_eq_true in E.
    assert (forall k, Forall (fun b => 0 <= b <= 255) (le_bytes k n)) as Hr.
    { intros k. unfold le_bytes. apply Forall_map, Forall_forall.
      intros i _. apply byte_of_range. }
    repeat (apply elem_of_cons in E; destruct E as [->|E]);
      [| | | |by apply elem_of_nil in E]; cbn [Z.eqb Pos.eqb];
      (split; [|split; [apply Hr|rewrite bytes_value_le_bytes; reflexivity]]).
    + by rewrite gen8_bytes.
    + by rewrite gen16_bytes.
    + by rewrite gen32_bytes.
    + by rewrite gen64_bytes.
  - apply bool_decide_eq_false in E.
    destruct (width =? 8) eqn:E8; [apply Z.eqb_eq in E8; set_solver|].
    destruct (width =? 16) eqn:E16; [apply Z.eqb_eq in E16; set_solver|].
    destruct (width =? 32) eqn:E32; [apply Z.eqb_eq in E32; set_solver|].
    destruct (width =? 64) eqn:E64; [apply Z.eqb_eq in E64; set_solver|].
    reflexivity.
Qed.

(** ** More of [asm.address] *)

Lemma well_formed_same_length a b :
  well_formed_address a -> well_formed_address b -> width a = width b ->
  length (addrElemArray a) = length (addrElemArray b).
Proof.
  intros [_ [Ha|Ha]] [_ [Hb|Hb]]; unfold width; rewrite Ha, Hb; simpl;
    congruence.
Qed.

Lemma addAddress_spec a b :
  well_formed_address a -> well_formed_address b ->
  if width a =? width b
  then exists s,
         addAddress a b = Ok s /\ well_formed_address s /\
         width s = width a /\ addr_bigEndian s = addr_bigEndian a /\
         addr_value s = (addr_value a + addr_value b) mod 2 ^ width a
  else addAddress a b = Error "both addresses must have the same width".
Proof.
  intros Ha Hb. unfold addAddress.
  destruct (width a =? width b) eqn:E; [|reflexivity].
  apply Z.eqb_eq in E.
  pose proof (well_formed_same_length a b Ha Hb E) as Hlen.
  destruct (addAddress_loop_spec (addrElemArray a) (addrElemArray b) 0
              (proj1 Ha) (proj1 Hb) Hlen ltac:(lia)) as (Hout & Hl & Hv).
  eexists. split; [reflexivity|].
  unfold well_formed_address, width, addr_value. simpl. rewrite Hl.
  split; [split; [done|apply Ha]|]. split; [done|]. split; [done|].
  rewrite Hv, Z.add_0_r. fold (addr_value a) (addr_value b).
  by rewrite (width_bits a Ha).
Qed.

(** [addAddress] is the sum modulo 2^width of two addresses of one
    width, with the endianness of the receiver; addresses of different
    widths are refused. *)
Theorem addAddress_modular a b :
  well_formed_address a -> well_formed_address b ->
  if width a =? width b
  then exists s,
         addAddress a b = Ok s /\ well_formed_address s /\
         width s = width a /\ addr_bigEndian s = addr_bigEndian a /\
         addr_value s = (addr_value a + addr_value b) mod 2 ^ width a
  else addAddress a b = Error "both addresses must have the same width".
Proof. apply addAddress_spec. Qed.


Lemma cmp_loop_app r1 : forall r2 t1 t2,
  length r1 = length r2 ->
  cmp_loop (r1 ++ t1) (r2 ++ t2)
    = if cmp_loop r1 r2 =? 0 then cmp_loop t1 t2 else cmp_loop r1 r2.
Proof.
  induction r1 as [|x r1 IH]; intros r2 t1 t2 Hlen.
  - destruct r2; [|discriminate]. reflexivity.
  - destruct r2 as [|y r2]; [discriminate|]. simpl.
    destruct (x <? y); [reflexivity|]. destruct (y <? x); [reflexivity|].
    apply IH. simpl in Hlen. lia.
Qed.

Lemma cmp_loop_reverse xs : forall ys,
  Forall limb xs -> Forall limb ys -> length xs = length ys ->
  cmp_loop (reverse xs) (reverse ys)
    = if limbs_value xs <? limbs_value ys then -1
      else if limbs_value ys <? limbs_value xs then 1 else 0.
Proof.
  induction xs as [|x xs IH]; intros ys Hxs Hys Hlen.
  - destruct ys; [|discriminate]. reflexivity.
  - destruct ys as [|y ys]; [discriminate|].
    inversion Hxs as [|? ? Hx Hxs']; inversion Hys as [|? ? Hy Hys']; subst.
    unfold limb in Hx, Hy. simpl in Hlen.
    rewrite !reverse_cons, cmp_loop_app by (rewrite !length_reverse; lia).
    rewrite IH by (auto; lia). cbn [limbs_value cmp_loop].
    repeat match goal with
           | |- context [?u <? ?v] => destruct (Z.ltb_spec u v); simpl
           end; try reflexivity; lia.
Qed.

(** [cmp] orders two addresses of one width as the numbers they stand
    for: -1, 0 or 1; addresses of different widths are refused. *)
Lemma cmp_orders_values a b :
  well_formed_address a -> well_formed_address b ->
  if width a =? width b
  then cmp a b = Ok (if addr_value a <? addr_value b then -1
                     else if addr_value b <? addr_value a then 1 else 0)
  else cmp a b = Error "both addresses must have the same width".
Proof.
  intros Ha Hb. unfold cmp.
  destruct (width a =? width b) eqn:E; [|reflexivity].
  apply Z.eqb_eq in E. f_equal.
  apply cmp_loop_reverse; [apply Ha|apply Hb|].
  by apply well_formed_same_length.
Qed.

Lemma bytes_value_getBytes limbs :
  Forall limb limbs ->
  bytes_value (flat_map (fun x => [js_and x 255; js_and (js_shr x 8) 255]) limbs)
    = limbs_value limbs.
Proof.
  induction 1 as [|x rest Hx Hrest IH]; [done|].
  unfold limb in Hx. cbn [flat_map app bytes_value limbs_value]. rewrite IH.
  assert (0 <= x / 256 < 256) as Hq.
  { split; [apply Z.div_pos; lia|]. apply Z.div_lt_upper_bound; lia. }
  rewrite (js_shr_8 x), (js_and_255 x), (js_and_255 (x / 256)) by lia.
  rewrite (Z.mod_small (x / 256)) by lia.
  pose proof (Z.div_mod x 256 ltac:(lia)). lia.
Qed.

Lemma length_getBytes a be :
  length (getBytes a be) = (2 * length (addrElemArray a))%nat.
Proof.
  unfold getBytes.
  assert (forall l : list Z,
            length (flat_map (fun x => [js_and x 255; js_and (js_shr x 8) 255]) l)
            = (2 * length l)%nat) as H.
  { induction l as [|x r IH]; [done|]. cbn [flat_map]. rewrite length_app, IH.
    simpl. lia. }
  destruct be; rewrite ?length_reverse; apply H.
Qed.

(** [getAddrOffsetBytes]: between two 32-bit addresses, the four bytes
    of the difference [addr - this] modulo 2^32 in the byte order asked
    for; from the zero address, [complement()] stops on "Address
    overflow"; 64-bit addresses are refused. *)
Lemma getAddrOffsetBytes_difference a addr be :
  well_formed_address a -> well_formed_address addr ->
  if width a =? 32
  then if width addr =? 32
       then if addr_value a =? 0
            then getAddrOffsetBytes a addr be = Error "Address overflow"
            else exists bytes,
                   getAddrOffsetBytes a addr be = Ok bytes /\
                   length bytes = 4%nat /\
                   bytes_value (if be then reverse bytes else bytes)
                     = (addr_value addr - addr_value a) mod 2 ^ 32
       else getAddrOffsetBytes a addr be
              = Error "both addresses must have the same width"
  else getAddrOffsetBytes a addr be = Error "64 bits offsets are not supported".
Proof.
  intros Ha Haddr. unfold getAddrOffsetBytes.
  destruct (width a =? 32) eqn:Ea; [|reflexivity].
  apply Z.eqb_eq in Ea. rewrite Ea.
  destruct (width addr =? 32) eqn:Eaddr.
  - apply Z.eqb_eq in Eaddr. rewrite Eaddr. change (32 =? 32) with true. cbv iota.
    pose proof (complement_spec a Ha) as Hc.
    destruct (addr_value a =? 0) eqn:Ez; [by rewrite Hc|].
    destruct Hc as (c & -> & Hwfc & Hlenc & Hvc). cbn [mbind result_bind].
    assert (width c = 32) as Hwc by (unfold width in *; by rewrite Hlenc).
    pose proof (addAddress_spec addr c Haddr Hwfc) as Hs.
    rewrite Eaddr, Hwc in Hs. change (32 =? 32) with true in Hs. cbv iota in Hs.
    destruct Hs as (s & -> & Hwfs & Hws & _ & Hvs). cbn [mbind result_bind].
    eexists. split; [reflexivity|]. split.
    + rewrite length_getBytes. unfold width in Hws.
      destruct Hwfs as [_ [H|H]]; rewrite H in *; [done|discriminate].
    + assert (bytes_value (getBytes s false) = addr_value s) as Hb
        by (apply bytes_value_getBytes, Hwfs).
      unfold getBytes in *. destruct be; rewrite ?reverse_involutive, Hb, Hvs, Hvc, Ea.
      * replace (addr_value addr + (2 ^ 32 - addr_value a))
          with (addr_value addr - addr_value a + 1 * 2 ^ 32) by lia.
        by rewrite Z.mod_add.
      * replace (addr_value addr + (2 ^ 32 - addr_value a))
          with (addr_value addr - addr_value a + 1 * 2 ^ 32) by lia.
        by rewrite Z.mod_add.
  - rewrite (Z.eqb_sym 32 (width addr)), Eaddr. reflexivity.
Qed.

(** *** Witnesses on the example addresses *)

Lemma addAddress_modular_witness :
  exists s,
    addAddress addr_five addr_top = Ok s /\ well_formed_address s /\
    width s = width addr_five /\ addr_bigEndian s = addr_bigEndian addr_five /\
    addr_value s = (addr_value addr_five + addr_value addr_top) mod 2 ^ width addr_five.
Proof.
  exact (addAddress_modular addr_five addr_top
           addr_five_well_formed addr_top_well_formed).
Defined.

Lemma cmp_orders_values_witness : cmp addr_five addr_top = Ok (-1).
Proof.
  exact (cmp_orders_values addr_five addr_top
           addr_five_well_formed addr_top_well_formed).
Defined.

Lemma getAddrOffsetBytes_difference_witness :
  exists bytes,
    getAddrOffsetBytes addr_five addr_top true = Ok bytes /\
    length bytes = 4%nat /\
    bytes_value (reverse bytes) = (addr_value addr_top - addr_value addr_five) mod 2 ^ 32.
Proof.
  exact (getAddrOffsetBytes_difference addr_five addr_top true
           addr_five_well_formed addr_top_well_formed).
Defined.

(** *** The constructor, from bytes *)

Lemma limbs_of_bytes_spec n : forall bs,
  length bs = (2 * n)%nat -> Forall (fun b => 0 <= b <= 255) bs ->
  Forall limb (limbs_of_bytes bs) /\
  length (limbs_of_bytes bs) = n /\
  flat_map (fun x => [js_and x 255; js_and (js_shr x 8) 255]) (limbs_of_bytes bs) = bs /\
  limbs_value (limbs_of_bytes bs) = bytes_value bs.
Proof.
  induction n as [|n IH]; intros bs Hlen Hb.
  - destruct bs; [|simpl in Hlen; lia]. repeat split; constructor.
  - destruct bs as [|b0 [|b1 rest]]; [simpl in Hlen; lia..|].
    inversion Hb as [|? ? Hb0 Hb']; subst. inversion Hb' as [|? ? Hb1 Hrest]; subst.
    destruct (IH rest) as (Hl & Hn & Hf & Hv); [simpl in Hlen; lia|done|].
    cbn [limbs_of_bytes flat_map app limbs_value bytes_value length].
    rewrite js_shl_8 by lia.
    assert ((b1 * 256 + b0) / 256 = b1) as Hq.
    { rewrite Z.div_add_l by lia. rewrite Z.div_small by lia. lia. }
    assert ((b1 * 256 + b0) mod 256 = b0) as Hr.
    { rewrite Z.add_comm, Z.mod_add by lia. apply Z.mod_small. lia. }
    rewrite js_and_255, js_shr_8, Hq, Hr, js_and_255, (Z.mod_small b1), Hf, Hn, Hv
      by lia.
    repeat split; [|lia].
    constructor; [unfold limb; lia|done].
Qed.

(** the constructor takes 4 or 8 bytes (each in 0..255) to a
    well-formed address of 32 or 64 bits whose bytes, read back with the
    same endianness, are the ones given, and whose number is that of the
    bytes taken least significant first; any other length is refused. *)
Theorem new_address_bytes bytes be :
  Forall (fun b => 0 <= b <= 255) bytes ->
  if bool_decide (length bytes = 4%nat \/ length bytes = 8%nat)
  then exists a,
         new_address bytes be = Ok a /\ well_formed_address a /\
         width a = 8 * Z.of_nat (length bytes) /\ addr_bigEndian a = be /\
         getBytes a be = bytes /\
         addr_value a = bytes_value (if be then reverse bytes else bytes)
  else exists msg, new_address bytes be = Error msg.
Proof.
  intros Hb. unfold new_address.
  destruct (bool_decide (length bytes = 4%nat \/ length bytes = 8%nat)) eqn:E;
    [|by eexists].
  apply bool_decide_eq_true in E.
  set (le := if be then reverse bytes else bytes).
  assert (Forall (fun b => 0 <= b <= 255) le) as Hle
    by (unfold le; destruct be; [by apply Forall_reverse|done]).
  assert (length le = length bytes) as Hlen
    by (unfold le; destruct be; [apply length_reverse|done]).
  assert (bytes = if be then reverse le else le) as Hback
    by (unfold le; destruct be; [by rewrite reverse_involutive|done]).
  eexists. split; [reflexivity|].
  unfold well_formed_address, width, getBytes, addr_value. cbn [addrElemArray addr_bigEndian].
  destruct E as [E|E].
  - destruct (limbs_of_bytes_spec 2 le) as (Hl & Hn & Hf & Hv); [lia|done|].
    rewrite Hn, Hf, Hv, E. repeat split; auto.
  - destruct (limbs_of_bytes_spec 4 le) as (Hl & Hn & Hf & Hv); [lia|done|].
    rewrite Hn, Hf, Hv, E. repeat split; auto.
Qed.

Lemma new_address_bytes_witness :
  exists a,
    new_address [1; 2; 3; 4] true = Ok a /\ well_formed_address a /\
    width a = 32 /\ addr_bigEndian a = true /\
    getBytes a true = [1; 2; 3; 4] /\
    addr_value a = bytes_value [4; 3; 2; 1].
Proof.
  refine (new_address_bytes [1; 2; 3; 4] true _).
  repeat constructor; lia.
Defined.

(** ** The errors of [assemble] *)

Lemma bind_Error {A B} (m : result A) (f : A -> result B) msg :
  m ≫= f = Error msg -> m = Error msg \/ exists a, m = Ok a /\ f a = Error msg.
Proof.
  destruct m as [a|e|]; intros H; [right; by exists a|left; inversion H; reflexivity|discriminate].
Qed.

Lemma size_deferred_errors lp pos dd msg :
  size_deferred lp pos dd = Error msg ->
  msg = "every check procedure tested without finding a valid one"%string.
Proof.
  unfold size_deferred.
  destruct (try_checks _ _ _ _) as [cur [s|]]; [|congruence].
  destruct (size dd =? s); discriminate.
Qed.

Lemma sizing_pass_errors fl : forall lp ds pos ch msg,
  sizing_pass fl lp ds pos ch = Error msg ->
  msg = "every check procedure tested without finding a valid one"%string \/
  msg = "not an object of the block"%string.
Proof.
  induction fl as [|[span curr] r IH]; intros lp ds pos ch msg H; simpl in H.
  - discriminate.
  - destruct curr as [n|l|d|t]; eauto.
    destruct (ds !! d) as [dd|]; [|right; congruence].
    apply bind_Error in H. destruct H as [H|([[dd1 p1] c1] & _ & H)]; [|eauto].
    left. eapply size_deferred_errors, H.
Qed.

Lemma label_pass_errors fl : forall lp ds pos ch msg,
  labels_defined (labels_of (fixup_items fl)) lp ->
  label_pass fl lp ds pos ch = Error msg ->
  msg = "not an object of the block"%string.
Proof.
  induction fl as [|[span curr] r IH]; intros lp ds pos ch msg Hl H; simpl in H.
  - discriminate.
  - destruct curr as [n|l|d|t]; simpl in Hl; eauto.
    + destruct (Hl l ltac:(set_solver)) as [p Hp]. rewrite Hp in H.
      destruct (p =? pos + span).
      * eapply IH; [|exact H]. intros x Hx. apply Hl. set_solver.
      * eapply IH; [|exact H]. intros x Hx.
        destruct (decide (x = l)) as [->|Hne].
        -- rewrite lookup_insert_eq. eauto.
        -- rewrite lookup_insert_ne by done. apply Hl. set_solver.
    + destruct (ds !! d); [eauto|congruence].
Qed.

Lemma label_pass_defined fl : forall lp ds pos ch lp' ch' l,
  label_pass fl lp ds pos ch = Ok (lp', ch') ->
  is_Some (lp !! l) -> is_Some (lp' !! l).
Proof.
  induction fl as [|[span curr] r IH]; intros lp ds pos ch lp' ch' l H Hl;
    simpl in H.
  - by inversion H; subst.
  - destruct curr as [n|x|d|t]; eauto.
    + destruct (lp !! x) as [p|] eqn:Ex; [|discriminate].
      destruct (p =? pos + span); [eauto|].
      eapply IH; [exact H|].
      destruct (decide (l = x)) as [->|Hne].
      * rewrite lookup_insert_eq. eauto.
      * by rewrite lookup_insert_ne.
    + destruct (ds !! d); [eauto|discriminate].
Qed.

Lemma fixpoint_loop_errors fuel : forall fl start lp ds msg,
  labels_defined (labels_of (fixup_items fl)) lp ->
  fixpoint_loop fuel fl start lp ds = Error msg ->
  msg = "every check procedure tested without finding a valid one"%string \/
  msg = "not an object of the block"%string.
Proof.
  induction fuel as [|fuel IH]; intros fl start lp ds msg Hl H; simpl in H.
  - discriminate.
  - apply bind_Error in H. destruct H as [H|([[lp1 ds1] ch] & H1 & H)].
    + unfold one_pass in H. apply bind_Error in H.
      destruct H as [H|([[ds1 p1] c1] & _ & H)].
      * eapply sizing_pass_errors, H.
      * apply bind_Error in H. destruct H as [H|([lp1 c2] & _ & H)]; [|discriminate].
        right. eapply label_pass_errors; eauto.
    + destruct ch; [|discriminate].
      eapply IH; [|exact H].
      apply one_pass_Ok in H1. destruct H1 as (p1 & ch1 & _ & Hp).
      intros l Hin. eapply label_pass_defined; eauto.
Qed.

Lemma emit_errors c : forall lp ds pos msg,
  consistent_walk c lp ds pos ->
  emit c lp ds pos = Error msg ->
  msg = "not an object of the block"%string \/ msg = "not a function"%string.
Proof.
  induction c as [|it r IH]; intros lp ds pos msg Hc H; simpl in H.
  - discriminate.
  - destruct it as [n|l|d|t]; simpl in Hc.
    + apply bind_Error in H. destruct H as [H|([o q] & _ & H)]; [eauto|discriminate].
    + destruct Hc as [Hl Hc]. rewrite Hl, Z.eqb_refl in H. eauto.
    + unfold dsize in Hc. destruct (ds !! d) as [dd|]; [|left; congruence].
      destruct (prods dd !! current dd); [|right; congruence].
      apply bind_Error in H. destruct H as [H|([o q] & _ & H)]; [eauto|discriminate].
    + rewrite Z.add_0_r in Hc.
      apply bind_Error in H. destruct H as [H|([o q] & _ & H)]; [eauto|discriminate].
Qed.

Lemma assemble_errors fuel cb msg :
  assemble fuel cb = Error msg ->
  msg = "every check procedure tested without finding a valid one"%string \/
  msg = "not an object of the block"%string \/ msg = "not a function"%string.
Proof.
  unfold assemble.
  destruct (build_fixups (code cb) 0 (startPos cb) (labels cb)) as [fl lp0] eqn:Eb.
  intros H. apply bind_Error in H. destruct H as [H|([lp ds] & Hf & H)].
  - destruct (build_fixups_items _ _ _ _ _ _ Eb) as (Hlab & _ & Hdef & _).
    rewrite <- Hlab in Hdef.
    destruct (fixpoint_loop_errors _ _ _ _ _ _ Hdef H); auto.
  - apply bind_Error in H. destruct H as [H|([o q] & _ & H)]; [|discriminate].
    apply fixpoint_loop_stable in Hf.
    pose proof (build_fixups_consistent _ _ _ _ _ _ _ _ _ Eb Hf) as Hc.
    rewrite Z.add_0_r in Hc.
    destruct (emit_errors _ _ _ _ _ Hc H); auto.
Qed.

(** On a block whose positions stay within the integers that a number
    holds exactly, [assemble] never stops on "inconsistency detected":
    when the fix-point has ended, the emission walk finds every label
    where the last label pass left it. *)
Theorem assemble_never_inconsistent fuel cb :
  exact_positions cb ->
  assemble fuel cb <> Error "inconsistency detected".
Proof.
  intros Hexact H. apply assemble_errors in H.
  destruct H as [H|[H|H]]; discriminate.
Qed.

Lemma assemble_never_inconsistent_witness :
  assemble 3 relax_block <> Error "inconsistency detected" /\
  assemble 4 relax_block <> Error "inconsistency detected".
Proof.
  split.
  - exact (assemble_never_inconsistent 3 relax_block relax_block_exact_positions).
  - exact (assemble_never_inconsistent 4 relax_block relax_block_exact_positions).
Defined.

(** *** A deferred object that no check procedure accepts *)

Lemma try_checks_never cs : forall lp pos cur,
  (forall check, check ∈ cs -> check lp pos = None) ->
  snd (try_checks cs lp pos cur) = None.
Proof.
  induction cs as [|c cs IH]; intros lp pos cur H; simpl; [done|].
  rewrite (H c) by set_solver. apply IH. intros. apply H. set_solver.
Qed.

Lemma size_deferred_never lp pos dd :
  never_applies dd ->
  size_deferred lp pos dd
    = Error "every check procedure tested without finding a valid one".
Proof.
  intros Hn. unfold size_deferred.
  pose proof (try_checks_never (drop (current dd) (checks dd)) lp pos (current dd)) as Ht.
  destruct (try_checks _ _ _ _) as [cur [s|]]; [|done].
  simpl in Ht. discriminate Ht.
  intros check Hin. apply list_elem_of_lookup in Hin. destruct Hin as [i Hi].
  rewrite lookup_drop in Hi. eapply Hn; [|exact Hi]. lia.
Qed.

Lemma sizing_pass_never fl : forall lp ds pos ch d dd,
  (forall e, e ∈ deferreds_of (fixup_items fl) -> is_Some (ds !! e)) ->
  d ∈ deferreds_of (fixup_items fl) ->
  ds !! d = Some dd -> never_applies dd ->
  sizing_pass fl lp ds pos ch
    = Error "every check procedure tested without finding a valid one".
Proof.
  induction fl as [|[span curr] r IH]; intros lp ds pos ch d dd Hp Hin Hd Hn;
    simpl in Hin |- *.
  - set_solver.
  - destruct curr as [n|l|e|t]; simpl in Hp; try (eapply IH; eauto; fail).
    destruct (decide (e = d)) as [->|Hne].
    + rewrite Hd, size_deferred_never by done. reflexivity.
    + destruct (Hp e (list_elem_of_here _ _)) as [de Hde]. rewrite Hde.
      destruct (size_deferred lp (pos + span) de) as [[[de' p'] c']|msg|] eqn:Es;
        cbn [mbind result_bind].
      * apply (IH _ _ _ _ d dd); [| |by rewrite lookup_insert_ne|done].
        -- intros x Hx. destruct (decide (x = e)) as [->|Hxe].
           ++ rewrite lookup_insert_eq. eauto.
           ++ rewrite lookup_insert_ne by done. apply Hp. by apply list_elem_of_further.
        -- apply elem_of_cons in Hin. destruct Hin as [->|Hin]; [done|exact Hin].
      * by rewrite (size_deferred_errors _ _ _ _ Es).
      * unfold size_deferred in Es.
        destruct (try_checks _ _ _ _) as [cur [s|]]; [|discriminate].
        destruct (size de =? s); discriminate.
Qed.

(** When every deferred object of the stream is an object of the block
    and one of them has, from [current] on, only check procedures that
    return [null], [assemble] stops in its first pass on "every check
    procedure tested without finding a valid one". *)
Theorem assemble_no_valid_check fuel cb d dd :
  deferreds_present cb ->
  d ∈ deferreds_of (code cb) ->
  deferreds cb !! d = Some dd ->
  never_applies dd ->
  assemble (S fuel) cb
    = Error "every check procedure tested without finding a valid one".
Proof.
  intros Hp Hin Hd Hn. unfold assemble.
  destruct (build_fixups (code cb) 0 (startPos cb) (labels cb)) as [fl lp0] eqn:Eb.
  destruct (build_fixups_items _ _ _ _ _ _ Eb) as (_ & Hdefs & _).
  cbn [fixpoint_loop]. unfold one_pass.
  rewrite (sizing_pass_never fl lp0 (deferreds cb) (startPos cb) false d dd);
    [reflexivity| |by rewrite Hdefs|done|done].
  intros e He. apply Hp. by rewrite <- Hdefs.
Qed.

Lemma assemble_no_valid_check_witness :
  assemble 1 stuck_block
    = Error "every check procedure tested without finding a valid one".
Proof.
  refine (assemble_no_valid_check 0 stuck_block 0
            (mkDeferred [fun _ _ => None] [fun _ _ => []] 0 0) _ _ eq_refl _).
  - intros d Hd. apply list_elem_of_singleton in Hd. subst d. by eexists.
  - apply list_elem_of_singleton. reflexivity.
  - intros i check lp pos _ Hi. destruct i; [|discriminate].
    inversion Hi; subst. reflexivity.
Defined.

(** ** What [assemble] leaves alone *)

Lemma build_fixups_frame c : forall span pos lp fl lp' l,
  build_fixups c span pos lp = (fl, lp') ->
  l ∉ labels_of c -> lp' !! l = lp !! l.
Proof.
  induction c as [|it r IH]; intros span pos lp fl lp' l H Hl; simpl in H.
  - by inversion H.
  - destruct it as [n|x|d|t]; simpl in Hl; eauto.
    + destruct (build_fixups r 0 pos (<[x:=pos]> lp)) as [fl1 lp1] eqn:E.
      inversion H; subst. apply not_elem_of_cons in Hl. destruct Hl as [Hne Hl].
      rewrite (IH _ _ _ _ _ _ E Hl). by rewrite lookup_insert_ne.
    + destruct (build_fixups r 0 pos lp) as [fl1 lp1] eqn:E.
      inversion H; subst. eauto.
Qed.

Lemma sizing_pass_frame fl : forall lp ds pos ch ds' pos' ch' d,
  sizing_pass fl lp ds pos ch = Ok (ds', pos', ch') ->
  d ∉ deferreds_of (fixup_items fl) -> ds' !! d = ds !! d.
Proof.
  induction fl as [|[span curr] r IH]; intros lp ds pos ch ds' pos' ch' d H Hd;
    simpl in H.
  - by inversion H.
  - destruct curr as [n|l|e|t]; simpl in Hd; eauto.
    destruct (ds !! e) as [de|] eqn:Ee; [|discriminate].
    inv_bind H. destruct a as [[de1 p1] c1].
    apply not_elem_of_cons in Hd. destruct Hd as [Hne Hd].
    rewrite (IH _ _ _ _ _ _ _ _ H Hd). by rewrite lookup_insert_ne.
Qed.

Lemma fixpoint_loop_frame fuel : forall fl start lp ds lp' ds',
  fixpoint_loop fuel fl start lp ds = Ok (lp', ds') ->
  (forall l, l ∉ labels_of (fixup_items fl) -> lp' !! l = lp !! l) /\
  (forall d, d ∉ deferreds_of (fixup_items fl) -> ds' !! d = ds !! d).
Proof.
  induction fuel as [|fuel IH]; intros fl start lp ds lp' ds' H; simpl in H.
  - discriminate.
  - inv_bind H. destruct a as [[lp1 ds1] ch].
    apply one_pass_Ok in Hm. destruct Hm as (p1 & ch1 & Hs & Hl).
    assert ((forall l, l ∉ labels_of (fixup_items fl) -> lp1 !! l = lp !! l) /\
            (forall d, d ∉ deferreds_of (fixup_items fl) -> ds1 !! d = ds !! d))
      as [Hl1 Hd1].
    { split.
      - intros l Hn. eapply label_pass_frame; eauto.
      - intros d Hn. eapply sizing_pass_frame; eauto. }
    destruct ch.
    + destruct (IH _ _ _ _ _ _ H) as [Hl2 Hd2]. split.
      * intros l Hn. by rewrite Hl2, Hl1.
      * intros d Hn. by rewrite Hd2, Hd1.
    + by inversion H; subst.
Qed.

Lemma listings_of_app c1 c2 :
  listings_of (c1 ++ c2) = listings_of c1 ++ listings_of c2.
Proof. unfold listings_of. apply omap_app. Qed.

Lemma listings_of_bytes (l : list Z) :
  listings_of (map (fun n => Num (num_and n 255)) l) = [].
Proof. induction l as [|x r IH]; [done|exact IH]. Qed.

Lemma emit_listings c : forall lp ds pos out p,
  emit c lp ds pos = Ok (out, p) -> listings_of out = listings_of c.
Proof.
  induction c as [|it r IH]; intros lp ds pos out p H; simpl in H.
  - by inversion H.
  - destruct it as [n|l|d|t].
    + inv_bind H. destruct a as [o q]. inversion H; subst.
      exact (IH _ _ _ _ _ Hm).
    + destruct (lp !! l) as [p0|]; [|discriminate].
      destruct (p0 =? pos); [|discriminate]. exact (IH _ _ _ _ _ H).
    + destruct (ds !! d) as [dd|]; [|discriminate].
      destruct (prods dd !! current dd); [|discriminate].
      inv_bind H. destruct a as [o q]. inversion H; subst.
      rewrite listings_of_app, listings_of_bytes. exact (IH _ _ _ _ _ Hm).
    + inv_bind H. destruct a as [o q]. inversion H; subst.
      change (t :: listings_of o = t :: listings_of r). f_equal.
      exact (IH _ _ _ _ _ Hm).
Qed.

(** A successful [assemble] changes the position of no label outside
    the stream and no deferred object outside the stream, keeps the
    listings of the stream in their order, and leaves the start
    position, the endianness and the provided and required arrays as
    they were. *)
Theorem assemble_frame fuel cb r cb' :
  assemble fuel cb = Ok (r, cb') ->
  (forall l, l ∉ labels_of (code cb) -> labels cb' !! l = labels cb !! l) /\
  (forall d, d ∉ deferreds_of (code cb) -> deferreds cb' !! d = deferreds cb !! d) /\
  listings_of (code cb') = listings_of (code cb) /\
  startPos cb' = startPos cb /\ bigEndian cb' = bigEndian cb /\
  useListing cb' = useListing cb /\
  providedArray cb' = providedArray cb /\ requiredArray cb' = requiredArray cb.
Proof.
  intros H. apply assemble_Ok in H.
  destruct H as (fl & lp0 & Hb & Hf & He & Hrest).
  destruct (build_fixups_items _ _ _ _ _ _ Hb) as (Hlab & Hdefs & _).
  destruct (fixpoint_loop_frame _ _ _ _ _ _ _ Hf) as [Hl Hd].
  rewrite Hlab in Hl. rewrite Hdefs in Hd.
  split; [|split; [exact Hd|split; [exact (emit_listings _ _ _ _ _ _ He)|exact Hrest]]].
  intros l Hn. rewrite (Hl l Hn). eapply build_fixups_frame; eauto.
Qed.

Lemma assemble_frame_witness :
  exists cb',
    assemble 2 listed_block = Ok (2, cb') /\
    listings_of (code cb') = ["nop"%string] /\
    requiredArray cb' = [].
Proof.
  eexists. split; [reflexivity|].
  destruct (assemble_frame 2 listed_block _ _ eq_refl) as (_ & _ & Hl & _ & _ & _ & _ & Hr).
  split; [exact Hl|exact Hr].
Defined.

(** ** A label that stands twice in the stream *)

Lemma build_fixups_label_at c : forall span pos lp fl lp' l q,
  build_fixups c span pos lp = (fl, lp') ->
  code_label_at c pos l q -> fixup_label_at fl (pos - span) l q.
Proof.
  induction c as [|it r IH]; intros span pos lp fl lp' l q H Hc; simpl in H, Hc.
  - contradiction.
  - destruct it as [n|x|d|t].
    + replace (pos - span) with (pos + 1 - (span + 1)) by lia. eauto.
    + destruct (build_fixups r 0 pos (<[x:=pos]> lp)) as [fl1 lp1] eqn:E.
      inversion H; subst. simpl.
      replace (pos - span + span) with pos by lia.
      destruct Hc as [Hc|Hc]; [by left|right].
      replace pos with (pos - 0) at 1 by lia. eauto.
    + destruct (build_fixups r 0 pos lp) as [fl1 lp1] eqn:E.
      inversion H; subst. simpl.
      replace (pos - span + span) with pos by lia.
      replace pos with (pos - 0) at 1 by lia. eauto.
    + eauto.
Qed.

Lemma code_label_at_app pre : forall pos l post,
  deferreds_of pre = [] ->
  code_label_at (pre ++ LBL l :: post) pos l (pos + count_numbers pre).
Proof.
  induction pre as [|it r IH]; intros pos l post Hd; simpl.
  - left. split; [done|lia].
  - destruct it as [n|x|d|t]; simpl in Hd.
    + replace (pos + (1 + count_numbers r)) with (pos + 1 + count_numbers r) by lia.
      by apply IH.
    + right. by apply IH.
    + discriminate.
    + by apply IH.
Qed.

Lemma label_pass_moved fl : forall lp ds pos ch lp' ch' l q,
  deferreds_of (fixup_items fl) = [] ->
  fixup_label_at fl pos l q -> lp !! l <> Some q ->
  label_pass fl lp ds pos ch = Ok (lp', ch') -> ch' = true.
Proof.
  induction fl as [|[span curr] r IH]; intros lp ds pos ch lp' ch' l q Hd Hat Hne H;
    simpl in H, Hat.
  - contradiction.
  - destruct curr as [n|x|d|t]; simpl in Hd; [eauto| |discriminate|eauto].
    destruct (lp !! x) as [p|] eqn:Ex; [|discriminate].
    destruct (p =? pos + span) eqn:Ep.
    + apply Z.eqb_eq in Ep. subst p.
      destruct Hat as [[-> ->]|Hat]; [congruence|eauto].
    + eapply label_pass_true, H.
Qed.

Lemma sizing_pass_no_deferred fl : forall lp ds pos ch,
  deferreds_of (fixup_items fl) = [] ->
  exists pos', sizing_pass fl lp ds pos ch = Ok (ds, pos', ch).
Proof.
  induction fl as [|[span curr] r IH]; intros lp ds pos ch Hd; simpl.
  - eauto.
  - destruct curr as [n|x|d|t]; simpl in Hd; [eauto..|discriminate|eauto].
Qed.

Lemma fixpoint_loop_label_twice fuel : forall fl start lp ds l q1 q2,
  deferreds_of (fixup_items fl) = [] ->
  labels_defined (labels_of (fixup_items fl)) lp ->
  fixup_label_at fl start l q1 -> fixup_label_at fl start l q2 -> q1 <> q2 ->
  fixpoint_loop fuel fl start lp ds = OutOfFuel.
Proof.
  induction fuel as [|fuel IH]; intros fl start lp ds l q1 q2 Hd Hl H1 H2 Hq;
    [reflexivity|].
  cbn [fixpoint_loop]. unfold one_pass.
  destruct (sizing_pass_no_deferred fl lp ds start false Hd) as [p1 ->].
  cbn [mbind result_bind].
  destruct (label_pass_total fl lp ds start false Hl) as (lp1 & ch1 & Hp & Hkeep).
  { rewrite Hd. intros d Hin. by apply elem_of_nil in Hin. }
  rewrite Hp. cbn [mbind result_bind].
  assert (ch1 = true) as ->.
  { destruct (decide (lp !! l = Some q1)) as [E|E].
    - eapply (label_pass_moved fl lp ds start false lp1 ch1 l q2); eauto. congruence.
    - eapply (label_pass_moved fl lp ds start false lp1 ch1 l q1); eauto. }
  apply (IH fl start lp1 ds l q1 q2); auto.
  intros x Hx. apply Hkeep, Hl, Hx.
Qed.

(** When the stream holds no deferred object and the same label stands in
    it twice with at least one byte in between, and the positions of the
    stream stay within the integers that a number holds exactly, the
    fix-point never ends: each label pass moves the label to its first
    place and then to its second, so every pass reports a change. *)
Theorem assemble_label_twice_never_returns cb pre l mid post :
  code cb = pre ++ LBL l :: mid ++ LBL l :: post ->
  deferreds_of (code cb) = [] ->
  0 < count_numbers mid ->
  Z.abs (startPos cb) + count_numbers (code cb) <= 2 ^ 53 ->
  forall fuel, assemble fuel cb = OutOfFuel.
Proof.
  intros Hc Hd Hmid Hexact fuel. unfold assemble.
  destruct (build_fixups (code cb) 0 (startPos cb) (labels cb)) as [fl lp0] eqn:Eb.
  destruct (build_fixups_items _ _ _ _ _ _ Eb) as (Hlab & Hdefs & Hdef & _).
  rewrite <- Hlab in Hdef. rewrite Hd in Hdefs.
  assert (deferreds_of pre = [] /\ deferreds_of mid = []) as [Hdpre Hdmid].
  { rewrite Hc in Hd. rewrite deferreds_of_app in Hd.
    apply app_eq_nil in Hd. destruct Hd as [Hd1 Hd2]. split; [done|].
    change (deferreds_of (LBL l :: mid ++ LBL l :: post))
      with (deferreds_of (mid ++ LBL l :: post)) in Hd2.
    rewrite deferreds_of_app in Hd2. by apply app_eq_nil in Hd2 as [? _]. }
  pose proof (code_label_at_app pre (startPos cb) l (mid ++ LBL l :: post) Hdpre) as H1.
  pose proof (code_label_at_app (pre ++ LBL l :: mid) (startPos cb) l post) as H2.
  rewrite <- app_assoc, <- app_comm_cons, <- Hc in H2. rewrite <- Hc in H1.
  rewrite count_numbers_app in H2.
  change (count_numbers (LBL l :: mid)) with (count_numbers mid) in H2.
  specialize (H2 ltac:(rewrite deferreds_of_app, Hdpre; exact Hdmid)).
  apply (build_fixups_label_at _ _ _ _ _ _ _ _ Eb) in H1, H2.
  rewrite Z.sub_0_r in H1, H2.
  rewrite (fixpoint_loop_label_twice fuel fl (startPos cb) lp0 (deferreds cb) l
             _ _ Hdefs Hdef H1 H2); [reflexivity|lia].
Qed.

Lemma assemble_label_twice_never_returns_witness :
  assemble 5 twice_block = OutOfFuel.
Proof.
  exact (assemble_label_twice_never_returns twice_block [] 3 [Num 144] []
           eq_refl eq_refl ltac:(reflexivity) ltac:(vm_compute; discriminate) 5%nat).
Defined.

(** ** What [asm.link] leaves alone *)

Lemma writeToMemoryBlock_Ok block index value block' :
  writeToMemoryBlock block index value = Ok block' ->
  0 <= index < Z.of_nat (length block) /\
  block' = <[Z.to_nat index := value]> block.
Proof.
  unfold writeToMemoryBlock.
  destruct (0 <=? index) eqn:E1; [|discriminate].
  destruct (index <? Z.of_nat (length block)) eqn:E2; [|discriminate].
  intros H. inversion H; subst. split; [lia|reflexivity].
Qed.

Lemma link_write_frame bytes : forall block offset i block' k,
  link_write block offset i bytes = Ok block' ->
  ~ (offset + i <= Z.of_nat k < offset + i + Z.of_nat (length bytes)) ->
  length block' = length block /\ block' !! k = block !! k.
Proof.
  induction bytes as [|b rest IH]; intros block offset i block' k H Hk; simpl in H.
  - by inversion H; subst.
  - inv_bind H. apply writeToMemoryBlock_Ok in Hm. destruct Hm as [Hb ->].
    simpl in Hk.
    destruct (IH _ _ _ _ k H) as [Hlen Hlook]; [lia|].
    rewrite Hlen, Hlook, length_insert. split; [done|].
    apply list_lookup_insert_ne. lia.
Qed.

Lemma link_sites_frame sites : forall block block' k,
  link_sites block sites = Ok block' ->
  Forall (fun r => ~ (req_offset r <= Z.of_nat k
                      < req_offset r + Z.of_nat (length (req_linkValue r)))) sites ->
  length block' = length block /\ block' !! k = block !! k.
Proof.
  induction sites as [|r rest IH]; intros block block' k H Hk; simpl in H.
  - by inversion H; subst.
  - inv_bind H. inversion Hk as [|? ? Hr Hrest]; subst.
    destruct (link_write_frame _ _ _ _ _ k Hm) as [Hlen Hlook]; [lia|].
    destruct (IH _ _ k H Hrest) as [Hlen' Hlook'].
    rewrite Hlen', Hlook', Hlen, Hlook. done.
Qed.

(** A successful [asm.link] keeps the size of the block and its required
    objects, and leaves every byte that lies in the range of no required
    site as it was. *)
Theorem link_frame mcb mcb' k :
  link mcb = Ok mcb' ->
  Forall (fun r => ~ (req_offset r <= Z.of_nat k
                      < req_offset r + Z.of_nat (length (req_linkValue r))))
    (mc_requiredArray mcb) ->
  length (mc_bytes mcb') = length (mc_bytes mcb) /\
  mc_requiredArray mcb' = mc_requiredArray mcb /\
  mc_bytes mcb' !! k = mc_bytes mcb !! k.
Proof.
  unfold link. intros H Hk. inv_bind H. inversion H; subst. simpl.
  destruct (link_sites_frame _ _ _ k Hm Hk) as [Hlen Hlook]. done.
Qed.

Lemma link_frame_witness :
  exists mcb',
    link short_site_block = Ok mcb' /\
    length (mc_bytes mcb') = 8%nat /\ mc_bytes mcb' !! 6%nat = Some 0.
Proof.
  eexists. split; [reflexivity|].
  refine (let H := link_frame short_site_block _ 6 eq_refl _ in
          conj (proj1 H) (proj2 (proj2 H))).
  repeat constructor. vm_compute. intros [_ H]. discriminate H.
Defined.

(** ** [align] in a block of bytes *)

Lemma build_fixups_nums bs : forall c span pos lp,
  build_fixups (map Num bs ++ c) span pos lp
    = build_fixups c (span + Z.of_nat (length bs)) (pos + Z.of_nat (length bs)) lp.
Proof.
  induction bs as [|b bs IH]; intros c span pos lp.
  - simpl. by rewrite !Z.add_0_r.
  - cbn [map app build_fixups length]. rewrite IH. f_equal; lia.
Qed.

Lemma emit_nums bs : forall c lp ds pos,
  emit (map Num bs ++ c) lp ds pos
    = '(out, p) ← emit c lp ds (pos + Z.of_nat (length bs)); Ok (map Num bs ++ out, p).
Proof.
  induction bs as [|b bs IH]; intros c lp ds pos.
  - simpl. rewrite Z.add_0_r. by destruct (emit c lp ds pos) as [[o q]| |].
  - cbn [map app emit length]. rewrite IH.
    replace (pos + 1 + Z.of_nat (length bs)) with (pos + Z.of_nat (S (length bs))) by lia.
    by destruct (emit c lp ds (pos + Z.of_nat (S (length bs)))) as [[o q]| |].
Qed.

Lemma build_fixups_only_nums bs span pos lp :
  build_fixups (map Num bs) span pos lp = ([], lp).
Proof.
  rewrite <- (app_nil_r (map Num bs)), build_fixups_nums. reflexivity.
Qed.

Lemma emit_only_nums bs lp ds pos :
  emit (map Num bs) lp ds pos = Ok (map Num bs, pos + Z.of_nat (length bs)).
Proof.
  rewrite <- (app_nil_r (map Num bs)) at 1. rewrite emit_nums.
  cbn [emit mbind result_bind]. by rewrite app_nil_r.
Qed.

Lemma one_pass_single s k start lp ds check prod sz n :
  ds !! k = Some (mkDeferred [check] [prod] 0 sz) ->
  check lp (start + s) = Some n ->
  one_pass [(s, DEF k)] start lp ds
    = Ok (lp, <[k := mkDeferred [check] [prod] 0 n]> ds, negb (sz =? n)).
Proof.
  intros Hd Hn. unfold one_pass. cbn [sizing_pass]. rewrite Hd.
  unfold size_deferred. cbn [current checks prods size drop try_checks].
  rewrite Hn. destruct (sz =? n) eqn:E.
  - apply Z.eqb_eq in E. subst sz.
    cbn [mbind result_bind sizing_pass label_pass orb negb].
    rewrite lookup_insert_eq. reflexivity.
  - cbn [mbind result_bind sizing_pass label_pass orb negb].
    rewrite lookup_insert_eq. reflexivity.
Qed.

Lemma assemble_single_deferred cb pre k post check prod n :
  code cb = map Num pre ++ DEF k :: map Num post ->
  deferreds cb !! k = Some (mkDeferred [check] [prod] 0 0) ->
  check (labels cb) (startPos cb + Z.of_nat (length pre)) = Some n ->
  exists cb',
    assemble 2 cb
      = Ok (startPos cb + Z.of_nat (length pre) + n + Z.of_nat (length post), cb') /\
    code cb' = map Num pre
                 ++ map (fun x => Num (num_and x 255))
                      (prod (labels cb) (startPos cb + Z.of_nat (length pre)))
                 ++ map Num post.
Proof.
  intros Hc Hd Hn. unfold assemble. rewrite Hc, build_fixups_nums.
  cbn [build_fixups]. rewrite build_fixups_only_nums.
  set (pos := startPos cb + Z.of_nat (length pre)) in *.
  rewrite Z.add_0_l.
  assert (forall ds sz,
            ds !! k = Some (mkDeferred [check] [prod] 0 sz) ->
            emit (map Num pre ++ DEF k :: map Num post) (labels cb) ds (startPos cb)
              = Ok (map Num pre
                      ++ map (fun x => Num (num_and x 255)) (prod (labels cb) pos)
                      ++ map Num post,
                    pos + sz + Z.of_nat (length post))) as Hemit.
  { intros ds sz Hk. rewrite emit_nums. fold pos. cbn [emit]. rewrite Hk.
    cbn [prods current size lookup list_lookup].
    rewrite emit_only_nums. cbn [mbind result_bind]. reflexivity. }
  cbn [fixpoint_loop].
  rewrite (one_pass_single _ _ _ _ _ _ _ 0 n Hd Hn). cbn [mbind result_bind].
  destruct (0 =? n) eqn:E; cbn [negb mbind result_bind].
  - apply Z.eqb_eq in E. subst n.
    rewrite (Hemit _ 0) by apply lookup_insert_eq. cbn [mbind result_bind].
    eexists. split; reflexivity.
  - rewrite (one_pass_single _ _ _ _ _ _ _ n n (lookup_insert_eq _ _ _) Hn).
    cbn [mbind result_bind]. rewrite Z.eqb_refl. cbn [negb mbind result_bind].
    rewrite (Hemit _ n) by apply lookup_insert_eq. cbn [mbind result_bind].
    eexists. split; reflexivity.
Qed.

(** [align(multiple, offset, fill)] called after the bytes [pre], with
    the bytes [post] appended after it, when the positions of the stream
    and [offset] are integers that a number holds exactly, and so is
    [-pos + offset] at the position of the padding: [assemble] ends
    within two passes, the stream is [pre], [n] times the low byte of
    [fill], then [post], where [n] is below [multiple] and brings the
    position after the padding to [offset] modulo [multiple]. *)
Theorem align_assemble multiple offset fill pre post cb n :
  0 < multiple ->
  Z.abs (startPos cb) + Z.of_nat (length pre) + 2 * multiple
    + Z.of_nat (length post) <= 2 ^ 53 ->
  safe_integer offset ->
  safe_integer (- (startPos cb + Z.of_nat (length pre)) + offset) ->
  code cb = map Num pre ->
  n = align_mod (- (startPos cb + Z.of_nat (length pre)) + offset) multiple ->
  exists cb1 cb',
    align multiple offset fill cb = Ok cb1 /\
    assemble 2 (set_code cb1 (code cb1 ++ map Num post))
      = Ok (startPos cb + Z.of_nat (length pre) + n + Z.of_nat (length post), cb') /\
    code cb' = map Num pre ++ replicate (Z.to_nat n) (Num (num_and fill 255))
                 ++ map Num post /\
    0 <= n < multiple /\
    (startPos cb + Z.of_nat (length pre) + n - offset) mod multiple = 0.
Proof.
  intros Hm Hexact Hoffset Hdiff Hc ->.
  set (pos := startPos cb + Z.of_nat (length pre)).
  set (n := align_mod (- pos + offset) multiple).
  destruct (align_mod_spec (- pos + offset) multiple Hm) as [Hb Hz]. fold n in Hb, Hz.
  eexists. 
  destruct (assemble_single_deferred
              (set_code (extend (DEF (fresh (dom (deferreds cb))))
                           (set_deferreds cb
                              (<[fresh (dom (deferreds cb)) :=
                                   mkDeferred [align_nb_bytes multiple offset]
                                     [align_add_bytes multiple offset fill] 0 0]>
                                 (deferreds cb))))
                 (code (extend (DEF (fresh (dom (deferreds cb))))
                          (set_deferreds cb
                             (<[fresh (dom (deferreds cb)) :=
                                  mkDeferred [align_nb_bytes multiple offset]
                                    [align_add_bytes multiple offset fill] 0 0]>
                                (deferreds cb)))) ++ map Num post))
              pre (fresh (dom (deferreds cb))) post
              (align_nb_bytes multiple offset) (align_add_bytes multiple offset fill) n)
    as (cb' & Ha & Hcode).
  - simpl. rewrite Hc, <- app_assoc. reflexivity.
  - simpl. apply lookup_insert_eq.
  - reflexivity.
  - exists cb'. split; [reflexivity|]. split; [exact Ha|].
    split; [|split; [exact Hb|]].
    + rewrite Hcode. unfold align_add_bytes. simpl. fold pos. fold n.
      do 2 f_equal. generalize (Z.to_nat n). clear.
      intros m. induction m as [|m IH]; [done|]. simpl. by rewrite IH.
    + replace (pos + n - offset) with (- (- pos + offset - n)) by lia.
      apply Z.mod_opp_l_z; [lia|done].
Qed.

Lemma align_assemble_witness :
  exists cb1 cb',
    align 8 0 204 (gen8 3 (gen8 2 (gen8 1 (new_CodeBlock 0 false false)))) = Ok cb1 /\
    assemble 2 (set_code cb1 (code cb1 ++ map Num [255])) = Ok (9, cb') /\
    code cb' = map Num [1; 2; 3] ++ replicate 5 (Num 204) ++ map Num [255] /\
    0 <= 5 < 8 /\ (0 + 3 + 5 - 0) mod 8 = 0.
Proof.
  exact (align_assemble 8 0 204 [1; 2; 3] [255]
           (gen8 3 (gen8 2 (gen8 1 (new_CodeBlock 0 false false)))) 5
           ltac:(lia) ltac:(vm_compute; discriminate)
           ltac:(vm_compute; discriminate) ltac:(vm_compute; discriminate)
           eq_refl eq_refl).
Defined.

(** ** [listingString] *)

Lemma js_shr_4 p : 0 <= p < 2 ^ 31 -> js_shr p 4 = p / 16.
Proof.
  intros H. unfold js_shr. rewrite js_toInt32_small by lia.
  change (4 mod 32) with 4. rewrite Z.shiftr_div_pow2 by lia. reflexivity.
Qed.

Lemma printPos_loop_step n p s :
  0 <= p < 2 ^ 31 ->
  printPos_loop (S n) p s = printPos_loop n (p / 16) (printDigit (p mod 16) :: s).
Proof.
  intros H. cbn [printPos_loop].
  rewrite js_shr_4 by done. rewrite Z.rem_mod_nonneg by lia. reflexivity.
Qed.

Lemma printDigit_hex d :
  0 <= d < 16 -> exists c, printDigit d = Some (String c EmptyString).
Proof.
  intros H.
  assert (exists k, (k < 16)%nat /\ d = Z.of_nat k) as (k & Hk & ->)
    by (exists (Z.to_nat d); lia).
  do 16 (destruct k as [|k]; [by eexists|]). lia.
Qed.

(** [printPos] writes the six hexadecimal digits of the position, the
    most significant first: the digit of weight 16^5 down to the digit
    of weight 1, so a position from 16^6 on is printed modulo 16^6. *)
Theorem printPos_hex p :
  0 <= p < 2 ^ 31 ->
  printPos p
    = join [printDigit (p / 16 ^ 5 mod 16); printDigit (p / 16 ^ 4 mod 16);
            printDigit (p / 16 ^ 3 mod 16); printDigit (p / 16 ^ 2 mod 16);
            printDigit (p / 16 mod 16); printDigit (p mod 16)] /\
  String.length (printPos p) = 6%nat.
Proof.
  intros H. unfold printPos. change (Z.to_nat posWidth) with 6%nat.
  assert (forall k, 0 < k -> 0 <= p / k < 2 ^ 31) as Hdiv.
  { intros k Hk. split; [apply Z.div_pos; lia|].
    apply Z.div_lt_upper_bound; [lia|]. nia. }
  assert (forall a b, 0 < a -> 0 < b -> p / a / b = p / (a * b)) as Hdd
    by (intros; apply Z.div_div; lia).
  rewrite printPos_loop_step by done.
  rewrite printPos_loop_step by (apply Hdiv; lia).
  rewrite Hdd by lia.
  rewrite printPos_loop_step by (apply Hdiv; lia).
  rewrite Hdd by lia.
  rewrite printPos_loop_step by (apply Hdiv; lia).
  rewrite Hdd by lia.
  rewrite printPos_loop_step by (apply Hdiv; lia).
  rewrite Hdd by lia.
  rewrite printPos_loop_step by (apply Hdiv; lia).
  cbn [printPos_loop].
  change (16 * 16 * 16 * 16 * 16) with (16 ^ 5).
  change (16 * 16 * 16 * 16) with (16 ^ 4).
  change (16 * 16 * 16) with (16 ^ 3).
  change (16 * 16) with (16 ^ 2).
  split; [reflexivity|].
  destruct (printDigit_hex (p / 16 ^ 5 mod 16)) as [c5 ->]; [apply Z.mod_pos_bound; lia|].
  destruct (printDigit_hex (p / 16 ^ 4 mod 16)) as [c4 ->]; [apply Z.mod_pos_bound; lia|].
  destruct (printDigit_hex (p / 16 ^ 3 mod 16)) as [c3 ->]; [apply Z.mod_pos_bound; lia|].
  destruct (printDigit_hex (p / 16 ^ 2 mod 16)) as [c2 ->]; [apply Z.mod_pos_bound; lia|].
  destruct (printDigit_hex (p / 16 mod 16)) as [c1 ->]; [apply Z.mod_pos_bound; lia|].
  destruct (printDigit_hex (p mod 16)) as [c0 ->]; [apply Z.mod_pos_bound; lia|].
  reflexivity.
Qed.

Lemma printPos_hex_witness :
  printPos 43981
    = join [printDigit 0; printDigit 0; printDigit 10; printDigit 11;
            printDigit 12; printDigit 13] /\
  String.length (printPos 43981) = 6%nat.
Proof. exact (printPos_hex 43981 ltac:(lia)). Defined.
















(** ** The null address *)

Lemma addAddress_loop_zero xs :
  Forall limb xs ->
  addAddress_loop xs (replicate (length xs) 0) 0 = xs.
Proof.
  induction 1 as [|x rest Hx Hrest IH]; [done|].
  unfold limb in Hx. cbn [length replicate addAddress_loop].
  rewrite !Z.add_0_r. rewrite js_and_65535, js_shr_16 by lia.
  rewrite Z.mod_small, Z.div_small by lia. by rewrite IH.
Qed.

(** The null address of the width of [a] is the zero of that width:
    adding it to [a] gives [a], and it compares equal to [a] when [a] is
    zero and below it otherwise. *)
Theorem nullAddr_neutral a be :
  well_formed_address a ->
  exists z,
    nullAddr (width a) be = Ok z /\ well_formed_address z /\
    width z = width a /\ addr_value z = 0 /\
    addAddress a z = Ok a /\
    cmp z a = Ok (if addr_value a =? 0 then 0 else -1).
Proof.
  intros Ha. pose proof (addr_value_bounds a Ha) as Hb.
  assert (exists z,
            nullAddr (width a) be = Ok z /\
            addrElemArray z = replicate (length (addrElemArray a)) 0) as (z & Hz & Hlimbs).
  { destruct Ha as [_ [H|H]]; unfold width; rewrite H;
      destruct be; eexists; (split; [reflexivity|reflexivity]). }
  assert (well_formed_address z) as Hwz.
  { split; rewrite Hlimbs.
    - apply Forall_replicate. unfold limb. lia.
    - rewrite length_replicate. apply Ha. }
  assert (width z = width a) as Hw
    by (unfold width; by rewrite Hlimbs, length_replicate).
  assert (addr_value z = 0) as Hv.
  { unfold addr_value. rewrite Hlimbs. clear.
    induction (length (addrElemArray a)) as [|n IH]; [done|].
    cbn [replicate limbs_value]. rewrite IH. done. }
  exists z. split; [done|]. split; [done|]. split; [done|]. split; [done|]. split.
  - unfold addAddress. rewrite Hw, Z.eqb_refl, Hlimbs.
    rewrite addAddress_loop_zero by apply Ha. by destruct a.
  - unfold cmp. rewrite Hw, Z.eqb_refl. f_equal.
    rewrite cmp_loop_reverse; [|apply Hwz|apply Ha|by rewrite Hlimbs, length_replicate].
    fold (addr_value z) (addr_value a). rewrite Hv.
    destruct (0 <? addr_value a) eqn:E1; destruct (addr_value a =? 0) eqn:E2;
      destruct (addr_value a <? 0) eqn:E3; try reflexivity; lia.
Qed.

Lemma nullAddr_neutral_witness :
  exists z,
    nullAddr (width addr_five) true = Ok z /\ well_formed_address z /\
    width z = width addr_five /\ addr_value z = 0 /\
    addAddress addr_five z = Ok addr_five /\
    cmp z addr_five = Ok (-1).
Proof. exact (nullAddr_neutral addr_five true addr_five_well_formed). Defined.

(** ** Offsets beyond 32 bits *)

Lemma js_toInt32_multiple k : js_toInt32 (k * 2 ^ 32) = 0.
Proof.
  unfold js_toInt32. rewrite Z.add_comm, Z.mod_add by lia.
  rewrite Z.mod_small by lia. lia.
Qed.

(** [addOffset] reads its operand through the 32-bit operators [&] and
    [>>]: an offset that is a positive multiple of 2^32 adds nothing,
    and the address comes back as it was, also when it has 64 bits. *)
Theorem addOffset_multiple_of_2_32 fuel a k :
  well_formed_address a -> 0 < k ->
  addOffset fuel a (k * 2 ^ 32) = Ok a.
Proof.
  intros [Hl Hlen] Hk. unfold addOffset, addOffset_nonneg.
  destruct (k * 2 ^ 32 <? 0) eqn:En; [apply Z.ltb_lt in En; lia|].
  destruct a as [limbs e]. cbn [addrElemArray addr_bigEndian] in *.
  destruct limbs as [|x rest]; [destruct Hlen; discriminate|].
  inversion Hl as [|? ? Hx Hrest]; subst. unfold limb in Hx.
  cbn [addOffset_loop].
  destruct (0 <? k * 2 ^ 32) eqn:Ep; [|apply Z.ltb_ge in Ep; lia].
  cbn [orb].
  assert (js_and (k * 2 ^ 32) 65535 = 0) as ->
    by (unfold js_and; by rewrite js_toInt32_multiple).
  assert (js_shr (k * 2 ^ 32) 16 = 0) as ->
    by (unfold js_shr; by rewrite js_toInt32_multiple).
  rewrite !Z.add_0_r. rewrite js_and_65535, js_shr_16 by lia.
  rewrite Z.mod_small, Z.div_small by lia.
  destruct rest; reflexivity.
Qed.

Lemma addOffset_multiple_of_2_32_witness :
  addOffset 0 (mkAddress [5; 0; 0; 0] false) (1 * 2 ^ 32)
    = Ok (mkAddress [5; 0; 0; 0] false).
Proof.
  refine (addOffset_multiple_of_2_32 0 (mkAddress [5; 0; 0; 0] false) 1 _ ltac:(lia)).
  split; [repeat constructor; unfold limb; lia|right; reflexivity].
Defined.

(** ** The bytes of an address *)

Lemma getBytes_range limbs :
  Forall limb limbs ->
  Forall (fun b => 0 <= b <= 255)
    (flat_map (fun x => [js_and x 255; js_and (js_shr x 8) 255]) limbs).
Proof.
  induction 1 as [|x rest Hx Hrest IH]; [constructor|].
  unfold limb in Hx. cbn [flat_map app].
  assert (0 <= x / 256 < 256) as Hq.
  { split; [apply Z.div_pos; lia|]. apply Z.div_lt_upper_bound; lia. }
  rewrite (js_shr_8 x), (js_and_255 x), (js_and_255 (x / 256)) by lia.
  pose proof (Z.mod_pos_bound x 256 ltac:(lia)).
  pose proof (Z.mod_pos_bound (x / 256) 256 ltac:(lia)).
  repeat constructor; try lia. exact IH.
Qed.

(** [getBytes(e)] of an address of 2 or 4 limbs gives [width/8] bytes,
    each in 0..255, which read in the endianness [e] are the number of
    the address, whatever the endianness the address was made with. *)
Theorem getBytes_value a be :
  well_formed_address a ->
  Z.of_nat (length (getBytes a be)) = width a / 8 /\
  Forall (fun b => 0 <= b <= 255) (getBytes a be) /\
  bytes_value (if be then reverse (getBytes a be) else getBytes a be) = addr_value a.
Proof.
  intros Ha. pose proof (bytes_value_getBytes _ (proj1 Ha)) as Hv.
  pose proof (getBytes_range _ (proj1 Ha)) as Hr.
  split; [|split].
  - rewrite length_getBytes. unfold width.
    destruct Ha as [_ [H|H]]; rewrite H; reflexivity.
  - unfold getBytes. destruct be; [by apply Forall_reverse|done].
  - unfold getBytes. destruct be; [by rewrite reverse_involutive|done].
Qed.

Lemma getBytes_value_witness :
  Z.of_nat (length (getBytes addr_top true)) = 4 /\
  Forall (fun b => 0 <= b <= 255) (getBytes addr_top true) /\
  bytes_value (reverse (getBytes addr_top true)) = addr_value addr_top.
Proof. exact (getBytes_value addr_top true addr_top_well_formed). Defined.
